(** * distribute.py: prefixing unqualified tables for federated SQL

    A shallow embedding of [src/distribute.py] (mapping loader, combo pool,
    AST rewriter, text clean-up and the file loop of [main]) and the
    properties of the rewriting engine proved about it.

    Third-party code is not part of the repository and is kept behind
    interfaces: the SQL parser and generator of sqlglot ([SqlGlot]), the
    generator object of Python's [random] module ([Random]), the case
    mapping of the interpreter's Unicode database ([Unicode]) and the
    builtin [str] conversion ([Builtins]).  A text is a Python [str]: a
    sequence of Unicode code points. *)

From Stdlib Require Import NArith Strings.Byte.
From stdpp Require Import base list option numbers.

(** ** Python strings *)

(** A Unicode code point, and a [str] as the sequence of its code points. *)
Abbreviation char := N.
Abbreviation str := (list N).

(** A literal ["..."] denotes the code points of the text between the
    quotes; the file holds that text in UTF-8. *)
Inductive literal :=
| lit_nil
| lit_cons (c : N) (l : literal).

Fixpoint decode_utf8 (fuel : nat) (bytes : list N) : literal :=
  match fuel, bytes with
  | S fuel', b :: r =>
      if (b <? 0x80)%N then lit_cons b (decode_utf8 fuel' r)
      else if (b <? 0xE0)%N then
        match r with
        | b1 :: r' =>
            lit_cons ((b - 0xC0) * 0x40 + (b1 - 0x80))%N (decode_utf8 fuel' r')
        | _ => lit_nil
        end
      else if (b <? 0xF0)%N then
        match r with
        | b1 :: b2 :: r' =>
            lit_cons ((b - 0xE0) * 0x1000 + (b1 - 0x80) * 0x40 + (b2 - 0x80))%N
                     (decode_utf8 fuel' r')
        | _ => lit_nil
        end
      else
        match r with
        | b1 :: b2 :: b3 :: r' =>
            lit_cons ((b - 0xF0) * 0x40000 + (b1 - 0x80) * 0x1000
                      + (b2 - 0x80) * 0x40 + (b3 - 0x80))%N
                     (decode_utf8 fuel' r')
        | _ => lit_nil
        end
  | _, _ => lit_nil
  end.

Definition literal_of_bytes (bytes : list Byte.byte) : literal :=
  decode_utf8 (length bytes) ((λ b, N.of_nat (Byte.to_nat b)) <$> bytes).

(** Only texts of Basic Latin are shown as literals. *)
Fixpoint bytes_of_literal (l : literal) : option (list Byte.byte) :=
  match l with
  | lit_nil => Some []
  | lit_cons c r =>
      if (c <? 0x80)%N then
        match Byte.of_nat (N.to_nat c), bytes_of_literal r with
        | Some b, Some bs => Some (b :: bs)
        | _, _ => None
        end
      else None
  end.

Definition char_of_bytes (bytes : list Byte.byte) : option N :=
  match literal_of_bytes bytes with
  | lit_cons c lit_nil => Some c
  | _ => None
  end.

Definition bytes_of_char (c : N) : option (list Byte.byte) :=
  bytes_of_literal (lit_cons c lit_nil).

Declare Scope str_scope.
Delimit Scope str_scope with str.
Declare Scope char_scope.
Delimit Scope char_scope with char.
Bind Scope char_scope with N.
#[warnings="-via-type-mismatch,-via-type-remapping"]
String Notation list literal_of_bytes bytes_of_literal
  (via literal mapping [[nil] => lit_nil, [cons] => lit_cons]) : str_scope.
String Notation N char_of_bytes bytes_of_char : char_scope.
Open Scope str_scope.

Definition lf : char := 0x0A%N.
Definition cr : char := 0x0D%N.
Definition nl : str := [lf].

(** [a == b] on characters and on texts. *)
Definition char_eqb (a b : char) : bool := N.eqb a b.

Fixpoint str_eqb (a b : str) : bool :=
  match a, b with
  | [], [] => true
  | x :: a', y :: b' => char_eqb x y && str_eqb a' b'
  | _, _ => false
  end.

(** [str.__bool__]: only the empty string is falsy. *)
Definition nonempty (s : str) : bool :=
  match s with
  | [] => false
  | _ :: _ => true
  end.

(** [sep.join(parts)] *)
Fixpoint join (sep : str) (parts : list str) : str :=
  match parts with
  | [] => ""
  | [s] => s
  | s :: rest => s ++ sep ++ join sep rest
  end.

(** [s.split(sep, 1)] for a one-character separator: at most one split, at
    the first occurrence of the separator. *)
Fixpoint split1 (sep : char) (s : str) : list str :=
  match s with
  | [] => [[]]
  | c :: r =>
      if char_eqb c sep then [[]; r]
      else match split1 sep r with
           | a :: rest => (c :: a) :: rest
           | [] => [[c]]
           end
  end.

(** ["." in s] *)
Fixpoint has_dot (s : str) : bool :=
  match s with
  | [] => false
  | c :: r => char_eqb c "." || has_dot r
  end.

(** [x in names] for a collection of strings. *)
Definition mem (x : str) (names : list str) : bool :=
  existsb (str_eqb x) names.

(** [str.lower()].  The case mapping is a table of the interpreter
    (unicodedata), not of the repository. *)
Class Unicode := {
  lower : str → str
}.

(** ** Outcomes of Python code *)

Inductive exn :=
| IndexError      (* random.choice on an empty sequence *)
| ValueError      (* tuple unpacking of the wrong length *)
| AttributeError  (* attribute access on None *)
| TypeError       (* iteration over a non-iterable *)
| SystemExit (msg : str) (* sys.exit(msg) *)
| LibraryError (what : str). (* any other exception of a dependency *)

Inductive outcome (A : Type) :=
| Return (a : A)
| Raise (e : exn).
Arguments Return {A} a.
Arguments Raise {A} e.

Global Instance outcome_ret : MRet outcome := λ A a, Return a.
Global Instance outcome_bind : MBind outcome := λ A B k m,
  match m with
  | Return a => k a
  | Raise e => Raise e
  end.

(** A [for] loop whose body may raise: the state is threaded from left to
    right and the first exception ends the loop. *)
Fixpoint for_each {S X} (body : S → X → outcome S) (xs : list X) (s : S)
  : outcome S :=
  match xs with
  | [] => Return s
  | x :: xs' => s' ← body s x; for_each body xs' s'
  end.

(** ** The sqlglot AST, as far as the rewriter observes it *)

Inductive class :=
| Table
| CTE
| Other (label : str).

Definition class_eqb (a b : class) : bool :=
  match a, b with
  | Table, Table => true
  | CTE, CTE => true
  | Other x, Other y => str_eqb x y
  | _, _ => false
  end.

(** The value stored under ["db"] or ["catalog"] in [Expression.args]:
    absent ([None]), an [Identifier] node as the parser produces it, or a
    plain [str] as [Expression.set] stores it. *)
Inductive arg :=
| ANone
| AIdent (ident : str)
| AStr (s : str).

(** Truth value of [table.args.get(key)]: [None] and the empty str are
    falsy, an expression node is truthy. *)
Definition truthy (a : arg) : bool :=
  match a with
  | ANone => false
  | AIdent _ => true
  | AStr s => nonempty s
  end.

(** What the rewriter reads from and writes to one node: its class, the
    [name] and [alias] properties, and the two qualifier arguments. *)
Record node := Node {
  cls : class;
  name : str;
  alias : str;
  db : arg;
  catalog : arg
}.

(** [Expression.alias_or_name]: [self.alias or self.name]. *)
Definition alias_or_name (d : node) : str :=
  if nonempty (alias d) then alias d else name d.

(** An expression with its child expressions in [iter_expressions] order.
    Identifier nodes held under ["db"]/["catalog"] are kept in the [node]
    record: they are neither tables nor CTEs and have no such descendants. *)
#[local] Unset Elimination Schemes.
Inductive expr :=
| Expr (d : node) (kids : list expr).
#[local] Set Elimination Schemes.

Definition data (e : expr) : node := match e with Expr d _ => d end.
Definition kids (e : expr) : list expr := match e with Expr _ ks => ks end.

Fixpoint size (e : expr) : nat :=
  match e with
  | Expr _ ks => S (foldr (λ k n, size k + n) 0 ks)
  end.

(** A node is identified by the child indices leading to it from the root
    of its statement. *)
Definition path := list nat.

Fixpoint get (p : path) (e : expr) : option expr :=
  match p with
  | [] => Some e
  | i :: p' => k ← kids e !! i; get p' k
  end.

Definition data_at (p : path) (e : expr) : option node := data <$> get p e.

(** In-place change of the node at [p]; the children stay the same objects. *)
Fixpoint update (p : path) (f : node → node) (e : expr) : expr :=
  match p with
  | [] => Expr (f (data e)) (kids e)
  | i :: p' => Expr (data e) (alter (update p' f) i (kids e))
  end.

(** [table.set("catalog", catalog); table.set("db", schema)] *)
Definition set_catalog (v : str) (d : node) : node :=
  {| cls := cls d; name := name d; alias := alias d; db := db d;
     catalog := AStr v |}.
Definition set_db (v : str) (d : node) : node :=
  {| cls := cls d; name := name d; alias := alias d; db := AStr v;
     catalog := catalog d |}.

(** [node.iter_expressions()], each child with its path. *)
Definition iter_expressions (p : path) (e : expr) : list (path * expr) :=
  imap (λ i k, (p ++ [i], k)) (kids e).

(** [Expression.bfs]: pop the head of the queue, yield it, append its
    children.  Every pop consumes one node, so [size root] steps empty the
    queue. *)
Fixpoint bfs_queue (fuel : nat) (queue : list (path * expr))
  : list (path * expr) :=
  match fuel, queue with
  | S fuel', (p, e) :: rest =>
      (p, e) :: bfs_queue fuel' (rest ++ iter_expressions p e)
  | _, _ => []
  end.

Definition walk (root : expr) : list (path * expr) :=
  bfs_queue (size root) [([], root)].

(** [stmt.find_all(klass)]: the nodes of that class, in walk order. *)
Definition find_all (klass : class) (root : expr) : list path :=
  fst <$> filter (λ pe, class_eqb (cls (data pe.2)) klass = true) (walk root).

(** [isinstance(table.parent, exp.CTE)]; the root has no parent. *)
Definition parent_is_cte (p : path) (root : expr) : bool :=
  match p with
  | [] => false
  | _ :: _ =>
      match data_at (removelast p) root with
      | Some d => class_eqb (cls d) CTE
      | None => false
      end
  end.

(** ** Interfaces of the dependencies *)

(** The private generator [random.Random()]: its state and [_randbelow]. *)
Class Random := {
  rng : Type;
  randbelow : nat → rng → nat * rng;
  randbelow_lt : ∀ n g, 0 < n → (randbelow n g).1 < n
}.

Inductive parsed :=
| Statements (stmts : list (option expr))  (* list[Optional[Expression]] *)
| ParseError (e : str)                  (* sqlglot.errors.ParseError *)
| ParseRaises (x : exn).                   (* anything else, e.g. TokenError *)

(** [sqlglot.parse] and [Expression.sql(dialect="trino")]. *)
Class SqlGlot := {
  parse : str → parsed;
  to_sql : expr → str
}.

(** ** The rewriter *)

Section Rewriter.
Context `{Random} `{SqlGlot} `{Unicode}.

(** [x[i], x[j] = x[j], x[i]]: both reads come first, then the store at
    [i], then the store at [j].  The shuffle only uses indices in range. *)
Definition swap {A} (i j : nat) (x : list A) : list A :=
  match x !! i, x !! j with
  | Some xi, Some xj => <[j:=xi]> (<[i:=xj]> x)
  | _, _ => x
  end.

(** The iterations [i], [i - 1], ..., [1] of
    [for i in reversed(range(1, len(x))): j = randbelow(i + 1); swap]. *)
Fixpoint shuffle_from {A} (i : nat) (x : list A) (g : rng) : list A * rng :=
  match i with
  | 0 => (x, g)
  | S i' =>
      let '(j, g') := randbelow (S i) g in
      shuffle_from i' (swap i j x) g'
  end.

(** [rng.shuffle(x)] *)
Definition shuffle {A} (x : list A) (g : rng) : list A * rng :=
  shuffle_from (length x - 1) x g.

(** [rng.choice(seq)] *)
Definition choice {A} (seq : list A) (g : rng) : outcome (A * rng) :=
  match seq with
  | [] => Raise IndexError
  | _ :: _ =>
      let '(i, g') := randbelow (length seq) g in
      match seq !! i with
      | Some x => Return (x, g')
      | None => Raise IndexError
      end
  end.

(** [catalog, schema = catalog_schema.split(".", 1)] *)
Definition unpack2 (parts : list str) : outcome (str * str) :=
  match parts with
  | [a; b] => Return (a, b)
  | _ => Raise ValueError
  end.

Definition random_prefix (combos : list str) (g : rng)
  : outcome (str * str * rng) :=
  '(catalog_schema, g') ← choice combos g;
  '(catalog, schema) ← unpack2 (split1 "." catalog_schema);
  Return (catalog, schema, g').

(** The set comprehension collecting the CTE names of one statement. *)
Definition cte_names (stmt : expr) : list str :=
  omap (λ p, d ← data_at p stmt;
             if nonempty (alias_or_name d)
             then Some (lower (alias_or_name d)) else None)
       (find_all CTE stmt).

(** Body of the loop over [stmt.find_all(exp.Table)]: [p] is the node the
    generator yields, read in the tree as the earlier iterations left it. *)
Definition rewrite_table (combos names : list str)
    (st : expr * rng) (p : path) : outcome (expr * rng) :=
  let '(stmt, g) := st in
  match data_at p stmt with
  | None => Return st
  | Some table =>
      if truthy (db table) || truthy (catalog table) then Return st
      else if parent_is_cte p stmt then Return st
      else if mem (lower (name table)) names then Return st
      else
        '(catalog, schema, g') ← random_prefix combos g;
        Return (update p (set_db schema ∘ set_catalog catalog) stmt, g')
  end.

(** One iteration of [for stmt in statements].  [find_all] is a lazy
    generator over the tree that the body mutates; the body stores only
    strings, which the walk does not descend into, so the nodes yielded and
    their order are those of the tree as parsed. *)
Definition rewrite_stmt (combos : list str)
    (st : list expr * rng) (stmt : option expr) : outcome (list expr * rng) :=
  let '(done, g) := st in
  match stmt with
  | None => Raise AttributeError
  | Some e =>
      '(e', g') ← for_each (rewrite_table combos (cte_names e))
                           (find_all Table e) (e, g);
      Return (done ++ [e'], g')
  end.

Definition rewrite_statements (combos : list str)
    (statements : list (option expr)) (g : rng) : outcome (list expr * rng) :=
  for_each (rewrite_stmt combos) statements ([], g).

Definition warning (e : str) : str :=
  "⚠  sqlglot failed to parse statement — left unchanged:" ++ nl
    ++ "    " ++ e.

(** What a call of [rewrite_sql] leaves behind: its result, the caller's
    [combos] list as the call left it, and the lines printed. *)
Record call := Call {
  result : outcome str;
  combos_after : list str;
  printed : list str
}.

(** [rewrite_sql(sql, combos)]; [g] is the generator that
    [random.Random()] hands out in this call. *)
Definition rewrite_sql (g : rng) (sql : str) (combos : list str)
  : call :=
  match parse sql with
  | ParseError e => Call (Return sql) combos [warning e]
  | ParseRaises x => Call (Raise x) combos []
  | Statements statements =>
      let '(combos', g1) := shuffle combos g in
      Call ('(stmts', _) ← rewrite_statements combos' statements g1;
            Return (join (";" ++ nl) (to_sql <$> stmts')))
           combos' []
  end.

End Rewriter.

(** ** Vocabulary of the properties *)

(** The node bears a qualifier: the test of the first [continue]. *)
Definition qualified (d : node) : bool := truthy (db d) || truthy (catalog d).

Section Vocabulary.
Context `{Unicode}.

(** The node is exempt on account of a CTE: it sits directly under a CTE
    node, or its lower-cased name is one of the statement's CTE names. *)
Definition cte_exempt (stmt : expr) (p : path) (d : node) : bool :=
  parent_is_cte p stmt || mem (lower (name d)) (cte_names stmt).

Definition eligible (stmt : expr) (p : path) (d : node) : bool :=
  class_eqb (cls d) Table && negb (qualified d) && negb (cte_exempt stmt p d).

(** [d] is [d0] with both qualifiers set to the two sides of the first dot
    of one pool entry. *)
Definition drawn (combos : list str) (d0 d : node) : Prop :=
  ∃ entry c s,
    entry ∈ combos ∧ entry = c ++ "." ++ s ∧ has_dot c = false ∧
    d = Node (cls d0) (name d0) (alias d0) (AStr s) (AStr c).

(** How a statement and its rewritten form relate, node by node. *)
Definition rewritten (combos : list str) (stmt stmt' : expr) : Prop :=
  ∀ p,
    match data_at p stmt with
    | None => data_at p stmt' = None
    | Some d0 =>
        if eligible stmt p d0
        then ∃ d, drawn combos d0 d ∧ data_at p stmt' = Some d
        else data_at p stmt' = Some d0
    end.

(** The loop invariant: during the loop over the table nodes of [stmt],
    every node of the current tree [cur] is as it was, or is an eligible
    node that has received its qualifiers. *)
Definition partly_rewritten (combos : list str) (stmt cur : expr) : Prop :=
  ∀ p,
    data_at p cur = data_at p stmt ∨
    ∃ d0 d, data_at p stmt = Some d0 ∧ eligible stmt p d0 = true ∧
            drawn combos d0 d ∧ data_at p cur = Some d.

(** The node at [p], if eligible, has received its qualifiers. *)
Definition settled (combos : list str) (stmt : expr) (p : path)
    (cur : expr) : Prop :=
  ∀ d0, data_at p stmt = Some d0 → eligible stmt p d0 = true →
        ∃ d, drawn combos d0 d ∧ data_at p cur = Some d.

End Vocabulary.

(** The statement has no node in a table position. *)
Definition tableless (stmt : expr) : Prop :=
  ∀ p d, data_at p stmt = Some d → cls d ≠ Table.

(** The total size of the trees waiting in a walk's queue. *)
Definition sizes (queue : list (path * expr)) : nat :=
  foldr (λ pe n, size pe.2 + n) 0 queue.

(** ** Text clean-up *)

(** White space as [str.split], [str.strip] and [str.isspace] know it
    (Py_UNICODE_ISSPACE): the ASCII controls TAB, LF, VT, FF, CR, FS, GS,
    RS, US, the space, and NEL, NBSP, OGHAM SPACE MARK, EN QUAD to HAIR
    SPACE, LINE SEPARATOR, PARAGRAPH SEPARATOR, NARROW NBSP, MEDIUM
    MATHEMATICAL SPACE and IDEOGRAPHIC SPACE. *)
Definition whitespace : list char :=
  [0x09; 0x0A; 0x0B; 0x0C; 0x0D; 0x1C; 0x1D; 0x1E; 0x1F; 0x20;
   0x85; 0xA0; 0x1680;
   0x2000; 0x2001; 0x2002; 0x2003; 0x2004; 0x2005; 0x2006; 0x2007; 0x2008;
   0x2009; 0x200A;
   0x2028; 0x2029; 0x202F; 0x205F; 0x3000]%N.

Definition is_space (c : char) : bool := existsb (char_eqb c) whitespace.
Arguments is_space : simpl never.

(** Line boundaries of [str.splitlines] (Py_UNICODE_ISLINEBREAK): LF, VT,
    FF, CR, FS, GS, RS, NEL, LINE SEPARATOR and PARAGRAPH SEPARATOR; CR LF
    counts as one. *)
Definition linebreaks : list char :=
  [0x0A; 0x0B; 0x0C; 0x0D; 0x1C; 0x1D; 0x1E; 0x85; 0x2028; 0x2029]%N.

Definition is_linebreak (c : char) : bool := existsb (char_eqb c) linebreaks.
Arguments is_linebreak : simpl never.

(** [text.splitlines()] *)
Fixpoint splitlines (s : str) : list str :=
  match s with
  | [] => []
  | c :: r =>
      if is_linebreak c then
        match r with
        | c' :: r' =>
            if char_eqb c cr && char_eqb c' lf
            then [] :: splitlines r'
            else [] :: splitlines r
        | [] => [[]]
        end
      else
        match splitlines r with
        | ln :: lns => (c :: ln) :: lns
        | [] => [[c]]
        end
  end.

(** [s.lstrip()] *)
Fixpoint lstrip (s : str) : str :=
  match s with
  | [] => []
  | c :: r => if is_space c then lstrip r else s
  end.

(** [s.rstrip()] *)
Fixpoint rstrip (s : str) : str :=
  match s with
  | [] => []
  | c :: r =>
      match rstrip r with
      | [] => if is_space c then [] else [c]
      | r' => (c :: r')
      end
  end.

(** [s.startswith(pre)] *)
Fixpoint startswith (pre s : str) : bool :=
  match pre, s with
  | [], _ => true
  | a :: pre', b :: s' => char_eqb a b && startswith pre' s'
  | (_ :: _), [] => false
  end.

(** [s.endswith(c)] for a one-character suffix. *)
Fixpoint endswith (c : char) (s : str) : bool :=
  match s with
  | [] => false
  | [a] => char_eqb a c
  | _ :: r => endswith c r
  end.

(** [s[:-1]] *)
Fixpoint drop_last (s : str) : str :=
  match s with
  | [] => []
  | [_] => []
  | a :: r => (a :: drop_last r)
  end.

Definition strip_comments_and_semicolon (text : str) : str :=
  let lines :=
    filter (λ ln, startswith "--" (lstrip ln) = false) (splitlines text) in
  let cleaned := rstrip (join nl lines) in
  if endswith ";" cleaned then drop_last cleaned else cleaned.

(** [s.split()]: the maximal runs of non-space characters. *)
Fixpoint words (s : str) : list str :=
  match s with
  | [] => []
  | c :: r =>
      if is_space c then words r
      else match r with
           | [] => [[c]]
           | c' :: _ =>
               if is_space c' then [c] :: words r
               else match words r with
                    | w :: ws => (c :: w) :: ws
                    | [] => [[c]]
                    end
           end
  end.

(** [" ".join(rewritten.split())] *)
Definition single_line (rewritten : str) : str := join " " (words rewritten).

(** ** Mapping loader and combo pool *)

(** A decoded JSON or YAML document.  A float carries its [repr]. *)
#[local] Unset Elimination Schemes.
Inductive pyval :=
| PNone
| PBool (b : bool)
| PInt (z : Z)
| PFloat (repr : str)
| PStr (s : str)
| PList (items : list pyval)
| PDict (items : list (pyval * pyval)).
#[local] Set Elimination Schemes.

(** [isinstance(data, dict)] *)
Definition is_dict (v : pyval) : bool :=
  match v with
  | PDict _ => true
  | _ => false
  end.

(** The shape the mapping resource is documented to have: an object whose
    values are arrays. *)
Definition object_of_arrays (v : pyval) : bool :=
  match v with
  | PDict items =>
      forallb (λ kv, match kv.2 with PList _ => true | _ => false end) items
  | _ => false
  end.

(** The builtin [str(x)]; on a [str] it is the identity. *)
Class Builtins := {
  py_str : pyval → str;
  py_str_str : ∀ s, py_str (PStr s) = s
}.

Fixpoint chars (s : str) : list str :=
  match s with
  | [] => []
  | c :: r => [c] :: chars r
  end.

(** [for sch in schemas]: a list yields its items, a [str] its characters,
    a [dict] its keys; nothing else is iterable. *)
Definition py_iter (v : pyval) : outcome (list pyval) :=
  match v with
  | PList items => Return items
  | PStr s => Return (PStr <$> chars s)
  | PDict items => Return (fst <$> items)
  | _ => Raise TypeError
  end.

(** [d[k] = v] on an insertion-ordered dict. *)
Fixpoint dict_set {V} (k : str) (v : V) (d : list (str * V))
  : list (str * V) :=
  match d with
  | [] => [(k, v)]
  | (k', v') :: r =>
      if str_eqb k k' then (k', v) :: r else (k', v') :: dict_set k v r
  end.

Section Mapping.
Context `{Builtins}.

(** [load_mapping]; [document] is what reading and decoding the mapping
    file gave (lines 51-56). *)
Definition load_mapping (document : outcome pyval)
  : outcome (list (str * list str)) :=
  data ← document;
  match data with
  | PDict items =>
      for_each (λ (acc : list (str * list str)) '(cat, schemas),
                  schs ← py_iter schemas;
                  Return (dict_set (py_str cat) (py_str <$> schs) acc))
               items []
  | _ => Raise (SystemExit "Mapping must be a dict of {catalog: [schema, …]}")
  end.

(** [[f"{cat}.{schema}" for cat, schemas in mapping.items()
      for schema in schemas]] *)
Definition build_combos (mapping : list (str * list str))
  : list str :=
  '(cat, schemas) ← mapping; schema ← schemas; [cat ++ "." ++ schema].

(** Lines 150-152 of [main]: the pool, or the exit when it is empty. *)
Definition combo_pool (mapping : list (str * list str))
  : outcome (list str) :=
  let combos := build_combos mapping in
  match combos with
  | [] => Raise (SystemExit
            "Mapping contains no <catalog>.<schema> combinations to use.")
  | _ :: _ => Return combos
  end.
End Mapping.

(** ** The file loop of [main] *)

(** One entry of [sorted(input_dir.glob("*.sql"))]: the file name and what
    [read_text] returns for it. *)
Record source := Source {
  src_name : str;
  src_text : str
}.

(** What the run does to the outside: targets are relative to [out_dir]. *)
Inductive event :=
| Read (name : str)
| Write (target text : str)
| Print (line : str).

Fixpoint before_last_dot (s : str) : str :=
  match s with
  | [] => []
  | c :: r =>
      if char_eqb c "." && negb (has_dot r) then []
      else (c :: before_last_dot r)
  end.

(** [PurePath.stem]: the name up to its last dot, when that dot is neither
    the first nor the last character. *)
Definition stem (name : str) : str :=
  match name with
  | [] => []
  | c :: r =>
      if has_dot r && negb (endswith "." name)
      then (c :: before_last_dot r) else name
  end.

(** [out_dir / src.name], or [src.with_name(src.stem + "_mod.sql")] when no
    output directory was given. *)
Definition dst_name (output_dir : bool) (name : str) : str :=
  if output_dir then name else stem name ++ "_mod.sql".

Definition single_dst (name : str) : str := "single_line/" ++ name.

Definition ok_line (output_dir : bool) (name : str) : str :=
  "✔ " ++ name ++ " → " ++ dst_name output_dir name
    ++ " (single-line in " ++ single_dst name ++ ")".

Record run := Run {
  events : list event;
  pool : list str;       (* the combos list as the run left it *)
  status : outcome unit
}.

Section Main.
Context `{Random} `{SqlGlot} `{Unicode} `{Builtins}.

(** [for src in sql_files]; [entropy k] is the generator that
    [random.Random()] hands out during the call for file number [k]. *)
Fixpoint process_files (output_dir : bool) (entropy : nat → rng) (k : nat)
    (combos : list str) (sql_files : list source) : run :=
  match sql_files with
  | [] => Run [] combos (Return ())
  | src :: rest =>
      let cleaned := strip_comments_and_semicolon (src_text src) in
      let c := rewrite_sql (entropy k) cleaned combos in
      let before := Read (src_name src) :: (Print <$> printed c) in
      match result c with
      | Raise e => Run before (combos_after c) (Raise e)
      | Return rewritten =>
          let r := process_files output_dir entropy (S k)
                                 (combos_after c) rest in
          Run (before
                 ++ [Write (dst_name output_dir (src_name src)) rewritten;
                     Write (single_dst (src_name src)) (single_line rewritten);
                     Print (ok_line output_dir (src_name src))]
                 ++ events r)
              (pool r) (status r)
      end
  end.

(** [main] from line 149 on: [document] is the decoded mapping file,
    [sql_files] the sorted glob result. *)
Definition main (output_dir : bool) (document : outcome pyval)
    (sql_files : list source) (entropy : nat → rng) : run :=
  match mapping ← load_mapping document; combo_pool mapping with
  | Raise e => Run [] [] (Raise e)
  | Return combos =>
      match sql_files with
      | [] => Run [] combos
                (Raise (SystemExit "No .sql files found in input directory."))
      | _ :: _ =>
          let r := process_files output_dir entropy 0 combos sql_files in
          match status r with
          | Return _ => Run (events r ++ [Print "All done."]) (pool r)
                            (Return ())
          | Raise e => r
          end
      end
  end.

(** *** The run as section 5 of the specification words it

    One generator for the whole run: each file continues the stream where
    the previous file left it.  Everything else is as in the code. *)
Definition shared_stream_rewrite (g : rng) (sql : str)
    (combos : list str) : call * rng :=
  match parse sql with
  | ParseError e => (Call (Return sql) combos [warning e], g)
  | ParseRaises x => (Call (Raise x) combos [], g)
  | Statements statements =>
      let '(combos', g1) := shuffle combos g in
      match rewrite_statements combos' statements g1 with
      | Return (stmts', g2) =>
          (Call (Return (join (";" ++ nl) (to_sql <$> stmts'))) combos' [],
           g2)
      | Raise x => (Call (Raise x) combos' [], g1)
      end
  end.

Fixpoint shared_stream_files (output_dir : bool) (g : rng)
    (combos : list str) (sql_files : list source) : run :=
  match sql_files with
  | [] => Run [] combos (Return ())
  | src :: rest =>
      let cleaned := strip_comments_and_semicolon (src_text src) in
      let '(c, g') := shared_stream_rewrite g cleaned combos in
      let before := Read (src_name src) :: (Print <$> printed c) in
      match result c with
      | Raise e => Run before (combos_after c) (Raise e)
      | Return rewritten =>
          let r := shared_stream_files output_dir g' (combos_after c) rest in
          Run (before
                 ++ [Write (dst_name output_dir (src_name src)) rewritten;
                     Write (single_dst (src_name src)) (single_line rewritten);
                     Print (ok_line output_dir (src_name src))]
                 ++ events r)
              (pool r) (status r)
      end
  end.

End Main.

(** ** Vocabulary of the further properties *)

(** The result of an outcome under a function; an exception passes. *)
Global Instance outcome_fmap : FMap outcome := λ A B f m,
  match m with
  | Return a => Return (f a)
  | Raise e => Raise e
  end.




(** What the rewrite never touches of a node. *)
Definition identity_of (d : node) : class * str * str :=
  (cls d, name d, alias d).

(** [d.get(k)] on an insertion-ordered dict. *)
Fixpoint dict_get {V} (k : str) (d : list (str * V)) : option V :=
  match d with
  | [] => None
  | (k', v) :: r => if str_eqb k k' then Some v else dict_get k r
  end.

(** The line is one that the clean-up drops. *)
Definition is_comment (ln : str) : bool := startswith "--" (lstrip ln).

(** The file names read and the targets written, in order. *)
Definition reads (evs : list event) : list str :=
  omap (λ ev, match ev with Read n => Some n | _ => None end) evs.
Definition writes (evs : list event) : list str :=
  omap (λ ev, match ev with Write t _ => Some t | _ => None end) evs.

(** The decoded form of a mapping document of the documented shape: an
    object whose keys are the catalogs and whose values are arrays of
    schema strings. *)
Definition document_of (m : list (str * list str)) : pyval :=
  PDict ((λ '(cat, schemas), (PStr cat, PList (PStr <$> schemas))) <$> m).

(** The text contains a white-space character. *)
Fixpoint has_space (s : str) : bool :=
  match s with
  | [] => false
  | c :: r => is_space c || has_space r
  end.

(** The text contains a line boundary. *)
Fixpoint has_linebreak (s : str) : bool :=
  match s with
  | [] => false
  | c :: r => is_linebreak c || has_linebreak r
  end.

(** What [str.split()] returns, as its documentation has it: the text is
    the words in order, each non-empty and free of white space, with white
    space before, between and after them; a word ends where the text ends
    or white space follows. *)
Inductive split_of : str → list str → Prop :=
| split_of_blank sp :
    Forall (λ c, is_space c = true) sp → split_of sp []
| split_of_word sp w rest ws :
    Forall (λ c, is_space c = true) sp →
    w ≠ "" → has_space w = false →
    (rest = "" ∨ ∃ c r, rest = c :: r ∧ is_space c = true) →
    split_of rest ws →
    split_of (sp ++ w ++ rest) (w :: ws).

(** The texts written to one target, in order. *)
Definition writes_of (target : str) (evs : list event) : list str :=
  omap (λ ev, match ev with
              | Write t text => if str_eqb t target then Some text else None
              | _ => None
              end) evs.

(** The two targets written for a source file. *)
Definition targets (output_dir : bool) (src : source) : list str :=
  [dst_name output_dir (src_name src); single_dst (src_name src)].

Section MoreVocabulary.
Context `{SqlGlot} `{Unicode}.

(** Some table node of the statement is due a qualifier. *)
Definition has_eligible (stmt : expr) : bool :=
  existsb (λ p, match data_at p stmt with
                | Some d => eligible stmt p d
                | None => false
                end)
          (find_all Table stmt).

(** The parser accepts the text without an empty statement, or rejects it
    with a ParseError: the two outcomes that [rewrite_sql] survives. *)
Definition parses (sql : str) : bool :=
  match parse sql with
  | Statements stmts => forallb (λ s, match s with Some _ => true | None => false end) stmts
  | ParseError _ => true
  | ParseRaises _ => false
  end.

End MoreVocabulary.

Section MappingVocabulary.
Context `{Builtins}.

(** One turn of the dict comprehension of [load_mapping]. *)
Definition load_step (acc : list (str * list str))
    (item : pyval * pyval) : outcome (list (str * list str)) :=
  let '(cat, schemas) := item in
  schs ← py_iter schemas;
  Return (dict_set (py_str cat) (py_str <$> schs) acc).

End MappingVocabulary.

(** ** Concrete instances, for running the model *)

Module Demo.

(** A generator that replays a tape of raw draws. *)
Definition tape_randbelow (n : nat) (g : list nat) : nat * list nat :=
  match g with
  | [] => (0, [])
  | x :: g' => (x mod n, g')
  end.

Definition other (label : str) (ks : list expr) : expr :=
  Expr (Node (Other label) "" "" ANone ANone) ks.
Definition ident (s : str) : expr :=
  Expr (Node (Other "Identifier") s "" ANone ANone) [].
Definition table_alias (s : str) : expr :=
  Expr (Node (Other "TableAlias") s "" ANone ANone) [ident s].
(** [FROM t], [FROM t AS a], [FROM s.t] *)
Definition table (t : str) : expr :=
  Expr (Node Table t "" ANone ANone) [ident t].
Definition table_as (t a : str) : expr :=
  Expr (Node Table t a ANone ANone) [ident t; table_alias a].
Definition table_in (s t : str) : expr :=
  Expr (Node Table t "" (AIdent s) ANone) [ident t].
(** [a AS (body)] in a WITH clause *)
Definition cte (a : str) (body : expr) : expr :=
  Expr (Node CTE "" a ANone ANone) [body; table_alias a].
(** [FROM generate_series(a, b)]: a table node over a function; such a
    node has the empty [name]. *)
Definition series (a b : str) : expr :=
  Expr (Node Table "" "" ANone ANone)
       [Expr (Node (Other "GenerateSeries") "" "" ANone ANone)
             [other a []; other b []]].

Definition arg_text (a : arg) : list str :=
  match a with
  | ANone => []
  | AIdent s => [s]
  | AStr s => [s]
  end.

(** The catalog, the db and the table expression, as far as present,
    separated by dots. *)
Definition table_parts (d : node) (this : str) : str :=
  join "." (arg_text (catalog d) ++ arg_text (db d) ++ [this]).

(** A toy generator in the manner of sqlglot's for Trino: keywords and
    names separated by blanks; a table over GENERATE_SERIES is printed as
    UNNEST(SEQUENCE(...)), the generator having replaced the table node,
    qualifiers included, by an unnest node. *)
Fixpoint render (e : expr) : str :=
  match e with
  | Expr d ks =>
      match cls d with
      | Table =>
          match ks with
          | this :: _ =>
              if class_eqb (cls (data this)) (Other "GenerateSeries")
              then "UNNEST(" ++ render this ++ ")" ++
                     (if nonempty (alias d)
                      then " AS _u(" ++ alias d ++ ")" else "")
              else table_parts d (render this) ++
                     (if nonempty (alias d) then " AS " ++ alias d else "")
          | [] => table_parts d ""
          end
      | CTE =>
          alias d ++ " AS (" ++
            match ks with
            | body :: _ => render body
            | [] => ""
            end ++ ")"
      | Other "Identifier" => name d
      | Other "GenerateSeries" =>
          "SEQUENCE(" ++ join ", " (render <$> ks) ++ ")"
      | Other label => join " " (label :: (render <$> ks))
      end
  end.

(** [SELECT * FROM orders o JOIN customers c ON o.cid = c.id] *)
Definition q_join : expr :=
  other "SELECT"
    [other "*" [];
     other "FROM" [table_as "orders" "o"];
     other "JOIN" [table_as "customers" "c";
                   other "ON" [other "o.cid" []; other "=" [];
                               other "c.id" []]]].

(** [WITH recent AS (SELECT * FROM orders) SELECT * FROM Recent] *)
Definition q_cte : expr :=
  other "WITH"
    [cte "recent" (other "SELECT" [other "*" []; other "FROM" [table "orders"]]);
     other "SELECT" [other "*" []; other "FROM" [table "Recent"]]].

(** [SELECT * FROM sales.orders] *)
Definition q_qualified : expr :=
  other "SELECT" [other "*" []; other "FROM" [table_in "sales" "orders"]].

(** [SELECT 1] *)
Definition q_const : expr := other "SELECT" [other "1" []].

Definition sql_join : str :=
  "SELECT * FROM orders o JOIN customers c ON o.cid = c.id".
Definition sql_cte : str :=
  "WITH recent AS (SELECT * FROM orders) SELECT * FROM Recent".
Definition sql_qualified : str := "SELECT * FROM sales.orders".
Definition sql_const : str := "SELECT 1".
Definition sql_truncated : str := "SELECT * FROM (orders".

(** The parser on the texts above; everything else counts as a syntax
    error. *)
Definition demo_parse (sql : str) : parsed :=
  if str_eqb sql sql_join then Statements [Some q_join]
  else if str_eqb sql sql_cte then Statements [Some q_cte]
  else if str_eqb sql sql_qualified then Statements [Some q_qualified]
  else if str_eqb sql sql_const then Statements [Some q_const]
  else ParseError "Expecting )".

Definition demo_str (v : pyval) : str :=
  match v with
  | PNone => "None"
  | PBool true => "True"
  | PBool false => "False"
  | PStr s => s
  | PFloat r => r
  | _ => "?"
  end.

(** [str.lower()] on text of the Basic Latin and Latin-1 Supplement
    blocks: A to Z, and À to Þ without the multiplication sign, move up by
    32; nothing else there has a lower-case form. *)
Definition lower_latin1 (c : char) : char :=
  if ((0x41 <=? c) && (c <=? 0x5A)
      || (0xC0 <=? c) && (c <=? 0xDE) && negb (c =? 0xD7))%N
  then (c + 0x20)%N else c.

(** The four interfaces, instantiated. *)
Definition tape : Random.
Proof.
  refine {| rng := list nat; randbelow := tape_randbelow |}.
  intros n [|x g] Hn; simpl; [exact Hn|]. apply Nat.mod_upper_bound. lia.
Defined.

Definition sqlglot : SqlGlot := {| parse := demo_parse; to_sql := render |}.

Definition unicode : Unicode := {| lower := fmap lower_latin1 |}.

Definition builtins : Builtins :=
  {| py_str := demo_str; py_str_str := λ s, eq_refl |}.

Definition pool2 : list str := ["postgres1.db1"; "postgres1.db2"].

Definition pool_xy : list str := ["a.x"; "b.y"].

Definition two_joins : list source :=
  [Source "q1.sql" sql_join; Source "q2.sql" sql_join].

(** [{"pg": ["x", "y"]}] and [{"pg": "ab"}] *)
Definition mapping_xy : pyval := PDict [(PStr "pg", PList [PStr "x"; PStr "y"])].
Definition mapping_str : pyval := PDict [(PStr "pg", PStr "ab")].

(** Two entropy sources that agree on the first generator handed out. *)
Definition entropy_a (k : nat) : list nat := [0; 0; 0].
Definition entropy_b (k : nat) : list nat :=
  match k with
  | 0 => [0; 0; 0]
  | S _ => [0; 1; 1]
  end.

End Demo.

(** ** Further inputs for running the model *)

Module Cases.

(** [SELECT 1;;SELECT 1]: sqlglot returns None for the text between the
    two semicolons. *)
Definition sql_gap : str := "SELECT 1;;SELECT 1".

Definition parse_gap (sql : str) : parsed :=
  if str_eqb sql sql_gap
  then Statements [Some Demo.q_const; None; Some Demo.q_const]
  else Demo.demo_parse sql.

Definition sqlglot_gap : SqlGlot :=
  {| parse := parse_gap; to_sql := Demo.render |}.

(** [SELECT * FROM generate_series(1, 3)]: a table function in the FROM
    clause. *)
Definition sql_series : str := "SELECT * FROM generate_series(1, 3)".
Definition q_series : expr :=
  Demo.other "SELECT"
    [Demo.other "*" []; Demo.other "FROM" [Demo.series "1" "3"]].

(** [WITH É AS (SELECT * FROM orders) SELECT * FROM é]: the reference and
    the CTE name differ in the case of a letter outside ASCII. *)
Definition sql_accent : str :=
  "WITH É AS (SELECT * FROM orders) SELECT * FROM é".
Definition q_accent : expr :=
  Demo.other "WITH"
    [Demo.cte "É" (Demo.other "SELECT"
                     [Demo.other "*" [];
                      Demo.other "FROM" [Demo.table "orders"]]);
     Demo.other "SELECT" [Demo.other "*" [];
                          Demo.other "FROM" [Demo.table "é"]]].

(** [WITH É AS (SELECT 1) SELECT * FROM é]: the same without any other
    table. *)
Definition sql_accent_const : str := "WITH É AS (SELECT 1) SELECT * FROM é".
Definition q_accent_const : expr :=
  Demo.other "WITH"
    [Demo.cte "É" Demo.q_const;
     Demo.other "SELECT" [Demo.other "*" [];
                          Demo.other "FROM" [Demo.table "é"]]].

Definition parse_more (sql : str) : parsed :=
  if str_eqb sql sql_series then Statements [Some q_series]
  else if str_eqb sql sql_accent then Statements [Some q_accent]
  else if str_eqb sql sql_accent_const then Statements [Some q_accent_const]
  else Demo.demo_parse sql.

Definition sqlglot_more : SqlGlot :=
  {| parse := parse_more; to_sql := Demo.render |}.

(** A pool whose one entry has no dot. *)
Definition pool_nodot : list str := ["postgres1"].

(** [{"pg": ["x"], "my": ["a", "b"]}] as a mapping and as a document with
    a colliding key: [{1: ["x"], "1": ["y"]}] in YAML. *)
Definition mapping_two : list (str * list str) :=
  [("pg", ["x"]); ("my", ["a"; "b"])].

Definition str_int (v : pyval) : str :=
  match v with
  | PInt 1 => "1"
  | v => Demo.demo_str v
  end.

Definition builtins_int : Builtins :=
  {| py_str := str_int; py_str_str := λ s, eq_refl |}.

Definition colliding : list (pyval * pyval) :=
  [(PInt 1, PList [PStr "x"]); (PStr "1", PList [PStr "y"])].

(** [{"pg": 3}] *)
Definition number_valued : list (pyval * pyval) := [(PStr "pg", PInt 3)].

Definition three_files : list source :=
  [Source "a.sql" Demo.sql_const;
   Source "b.sql" Demo.sql_join;
   Source "c.sql" Demo.sql_cte].

(** Two runs that reach their last file with the pool in the same order
    and the same generator, after different files and different numbers of
    draws: one file with two draws, or two files without any. *)
Definition entropy_c (k : nat) : list nat :=
  match k with
  | 0 => [1; 0; 1]
  | S _ => [0; 1; 0]
  end.
Definition entropy_d (k : nat) : list nat :=
  match k with
  | 0 => [1]
  | 1 => [5]
  | S (S _) => [0; 1; 0]
  end.
Definition before_c : list source := [Source "a.sql" Demo.sql_join].
Definition before_d : list source :=
  [Source "b.sql" Demo.sql_const; Source "c.sql" Demo.sql_truncated].

End Cases.

(** * Properties *)

(** ** Equality of characters and texts *)

Lemma char_eqb_eq a b : char_eqb a b = true ↔ a = b.
Proof. apply N.eqb_eq. Qed.

Lemma char_eqb_refl a : char_eqb a a = true.
Proof. apply N.eqb_refl. Qed.

Lemma char_eqb_sym a b : char_eqb a b = char_eqb b a.
Proof. apply N.eqb_sym. Qed.

Lemma str_eqb_eq a b : str_eqb a b = true ↔ a = b.
Proof.
  revert b. induction a as [|x a IH]; intros [|y b]; simpl; try done.
  rewrite andb_true_iff, char_eqb_eq, IH. split; [by intros [-> ->]|].
  by intros [= -> ->].
Qed.

Lemma str_eqb_refl a : str_eqb a a = true.
Proof. by apply str_eqb_eq. Qed.

(** ** Outcomes and loops *)

(** An invariant [I] of the loop state and a postcondition [Q] per element
    that later iterations keep: when every iteration returns and
    re-establishes them, the loop returns, [I] holds at the end and [Q]
    holds of every element. *)
Lemma for_each_post {S X} (I : S → Prop) (Q : X → S → Prop)
    (body : S → X → outcome S) (xs : list X) (s : S) :
  I s →
  (∀ s x, x ∈ xs → I s →
          ∃ s', body s x = Return s' ∧ I s' ∧ Q x s' ∧ ∀ y, Q y s → Q y s') →
  ∃ s', for_each body xs s = Return s' ∧ I s' ∧
        (∀ x, x ∈ xs → Q x s') ∧ (∀ y, Q y s → Q y s').
Proof.
  revert s. induction xs as [|x xs IH]; intros s Hs Hstep; simpl.
  - exists s. split_and!; [done..| |done]. intros x Hx. by apply elem_of_nil in Hx.
  - destruct (Hstep s x) as (s1 & -> & Hs1 & Hx1 & Hkeep1); [left|done|]. simpl.
    destruct (IH s1 Hs1) as (s' & -> & Hs' & Hxs & Hkeep).
    { intros s2 y Hy. apply Hstep. by right. }
    exists s'. split_and!; [done..| |by auto].
    intros y Hy. apply elem_of_cons in Hy as [->|Hy]; auto.
Qed.

(** ** Paths into a statement *)

Lemma get_app p q e :
  get (p ++ q) e = e' ← get p e; get q e'.
Proof.
  revert e. induction p as [|i p IH]; intros e; simpl; [done|].
  destruct (kids e !! i) as [k|]; simpl; [apply IH|done].
Qed.

Lemma get_snoc p i e e' k :
  get p e = Some e' → kids e' !! i = Some k → get (p ++ [i]) e = Some k.
Proof. intros Hp Hk. rewrite get_app, Hp. simpl. by rewrite Hk. Qed.

Lemma data_at_update_eq p f e :
  data_at p (update p f e) = f <$> data_at p e.
Proof.
  unfold data_at. revert e. induction p as [|i p IH]; intros e; simpl.
  - done.
  - rewrite list_lookup_alter_eq. destruct (kids e !! i) as [k|]; simpl;
      [apply IH|done].
Qed.

Lemma data_at_update_ne p q f e :
  p ≠ q → data_at q (update p f e) = data_at q e.
Proof.
  unfold data_at. revert q e. induction p as [|i p IH]; intros q e Hne.
  - destruct q as [|j q]; [done|]. by destruct e.
  - destruct q as [|j q]; [done|]. simpl.
    destruct (decide (i = j)) as [->|Hij].
    + rewrite list_lookup_alter_eq.
      destruct (kids e !! j) as [k|]; simpl; [|done].
      apply IH. congruence.
    + by rewrite list_lookup_alter_ne.
Qed.

(** ** The walk visits every node *)

Lemma sizes_app q1 q2 : sizes (q1 ++ q2) = sizes q1 + sizes q2.
Proof. induction q1 as [|pe q1 IH]; simpl; [done|]. rewrite IH. lia. Qed.

Lemma sizes_imap (f : nat → path) ks :
  sizes (imap (λ i k, (f i, k)) ks) = foldr (λ k n, size k + n) 0 ks.
Proof.
  revert f. induction ks as [|k ks IH]; intros f; simpl; [done|].
  f_equal. apply (IH (f ∘ S)).
Qed.

Lemma sizes_iter_expressions p e :
  S (sizes (iter_expressions p e)) = size e.
Proof.
  unfold iter_expressions. rewrite sizes_imap. by destruct e.
Qed.

Lemma size_pos e : 0 < size e.
Proof. destruct e; simpl; lia. Qed.

Lemma elem_of_iter_expressions p e q k :
  (q, k) ∈ iter_expressions p e ↔ ∃ i, q = p ++ [i] ∧ kids e !! i = Some k.
Proof.
  unfold iter_expressions. rewrite elem_of_lookup_imap. split.
  - intros (i & y & [= -> ->] & Hy). eauto.
  - intros (i & -> & Hk). eauto.
Qed.

(** Everything the queue yields lies below an entry of the queue. *)
Lemma bfs_queue_sound (P : path → expr → Prop) fuel queue :
  (∀ p e, (p, e) ∈ queue → P p e) →
  (∀ p e i k, P p e → kids e !! i = Some k → P (p ++ [i]) k) →
  ∀ p e, (p, e) ∈ bfs_queue fuel queue → P p e.
Proof.
  intros Hq Hstep. revert queue Hq.
  induction fuel as [|fuel IH]; intros queue Hq p e Hin; simpl in Hin.
  - by apply elem_of_nil in Hin.
  - destruct queue as [|[p0 e0] rest]; [by apply elem_of_nil in Hin|].
    apply elem_of_cons in Hin as [[= -> ->]|Hin].
    + apply Hq. left.
    + eapply IH; [|done]. intros q k Hk.
      apply elem_of_app in Hk as [Hk|Hk].
      * apply Hq. by right.
      * apply elem_of_iter_expressions in Hk as (i & -> & Hk).
        eapply Hstep; [|done]. apply Hq. left.
Qed.

(** With fuel for every node in the queue, every node below an entry of
    the queue is yielded. *)
Lemma bfs_queue_complete fuel queue :
  sizes queue ≤ fuel →
  ∀ q e p e', (q, e) ∈ queue → get p e = Some e' →
              (q ++ p, e') ∈ bfs_queue fuel queue.
Proof.
  revert queue. induction fuel as [|fuel IH]; intros queue Hfuel q e p e' Hin Hp.
  - destruct queue as [|[q0 e0] rest]; [by apply elem_of_nil in Hin|].
    simpl in Hfuel. pose proof (size_pos e0). lia.
  - destruct queue as [|[q0 e0] rest]; [by apply elem_of_nil in Hin|].
    simpl in *.
    assert (Hfuel' : sizes (rest ++ iter_expressions q0 e0) ≤ fuel).
    { rewrite sizes_app. pose proof (sizes_iter_expressions q0 e0). lia. }
    apply elem_of_cons in Hin as [[= -> ->]|Hin].
    + destruct p as [|i p]; simpl in Hp.
      * injection Hp as ->. rewrite app_nil_r. left.
      * right. destruct (kids e0 !! i) as [k|] eqn:Hk; [|done]. simpl in Hp.
        replace (q0 ++ i :: p) with ((q0 ++ [i]) ++ p)
          by (by rewrite <- app_assoc).
        eapply (IH _ Hfuel' _ k); [|done].
        apply elem_of_app. right. apply elem_of_iter_expressions. eauto.
    + right. eapply (IH _ Hfuel' _ e); [|done]. apply elem_of_app. by left.
Qed.

Lemma walk_sound root p e : (p, e) ∈ walk root → get p root = Some e.
Proof.
  apply (bfs_queue_sound (λ p e, get p root = Some e)).
  - intros q k Hq. apply list_elem_of_singleton in Hq. by injection Hq as -> ->.
  - intros q k i k' Hq Hk. by eapply get_snoc.
Qed.

Lemma walk_complete root p e : get p root = Some e → (p, e) ∈ walk root.
Proof.
  intros Hp.
  apply (bfs_queue_complete (size root) [([], root)]) with (q := []) (e := root);
    [simpl; lia|left|done].
Qed.

Lemma elem_of_find_all klass root p :
  p ∈ find_all klass root ↔
  ∃ d, data_at p root = Some d ∧ class_eqb (cls d) klass = true.
Proof.
  unfold find_all, data_at. rewrite list_elem_of_fmap. split.
  - intros ([q e] & -> & Hin). apply list_elem_of_filter in Hin as [Hc Hin].
    apply walk_sound in Hin. simpl in *. exists (data e). by rewrite Hin.
  - intros (d & Hd & Hc). destruct (get p root) as [e|] eqn:He; [|done].
    injection Hd as <-. exists (p, e). split; [done|].
    apply list_elem_of_filter. split; [done|]. by apply walk_complete.
Qed.

Lemma class_eqb_eq a b : class_eqb a b = true ↔ a = b.
Proof.
  destruct a, b; simpl; try (split; [done|congruence]); try done.
  rewrite str_eqb_eq. split; congruence.
Qed.

(** ** Splitting a pool entry *)

Lemma split1_first_dot a b :
  has_dot a = false → split1 "." (a ++ "."%char :: b) = [a; b].
Proof.
  induction a as [|c a IH]; simpl in *; [done|].
  destruct (char_eqb c "."); simpl; [done|]. intros Ha. by rewrite IH.
Qed.

Lemma has_dot_split s :
  has_dot s = true → ∃ a b, s = a ++ "." ++ b ∧ has_dot a = false.
Proof.
  induction s as [|c s IH]; simpl; [done|].
  destruct (char_eqb c ".") eqn:Hc; simpl.
  - intros _. apply char_eqb_eq in Hc as ->. by exists [], s.
  - intros Hs. destruct (IH Hs) as (a & b & -> & Ha).
    exists (c :: a), b. simpl. by rewrite Hc.
Qed.

Lemma split1_no_dot s : has_dot s = false → split1 "." s = [s].
Proof.
  induction s as [|c s IH]; simpl; [done|].
  destruct (char_eqb c "."); simpl; [done|]. intros Hs. by rewrite IH.
Qed.

Lemma has_dot_app a b : has_dot (a ++ b) = has_dot a || has_dot b.
Proof.
  induction a as [|c a IH]; simpl; [done|]. rewrite IH. by destruct (char_eqb c ".").
Qed.

Section RandomFacts.
Context `{Random} `{Unicode}.

Lemma swap_perm {A} i j (x : list A) : swap i j x ≡ₚ x.
Proof.
  unfold swap. destruct (x !! i) as [xi|] eqn:Hi; [|done].
  destruct (x !! j) as [xj|] eqn:Hj; [|done].
  by apply Permutation_insert_swap.
Qed.

Lemma shuffle_from_perm {A} i (x : list A) g : (shuffle_from i x g).1 ≡ₚ x.
Proof.
  revert x g. induction i as [|i IH]; intros x g; simpl; [done|].
  destruct (randbelow (S (S i)) g) as [j g'].
  rewrite IH. apply swap_perm.
Qed.

Lemma shuffle_perm {A} (x : list A) g : (shuffle x g).1 ≡ₚ x.
Proof. apply shuffle_from_perm. Qed.

(** [choice] on a non-empty sequence returns the element at the index
    drawn, and advances the generator by that one draw. *)
Lemma choice_nonempty {A} (seq : list A) g :
  seq ≠ [] →
  ∃ x, seq !! (randbelow (length seq) g).1 = Some x ∧
       choice seq g = Return (x, (randbelow (length seq) g).2).
Proof.
  intros Hne. unfold choice. destruct seq as [|a seq]; [done|].
  pose proof (randbelow_lt (length (a :: seq)) g) as Hlt.
  destruct (randbelow (length (a :: seq)) g) as [i g'] eqn:Hr. simpl in Hlt.
  destruct (lookup_lt_is_Some_2 (a :: seq) i) as [x Hx]; [simpl; lia|].
  exists x. simpl in *. by rewrite Hx.
Qed.

Lemma random_prefix_entry combos g entry a b :
  combos !! (randbelow (length combos) g).1 = Some entry →
  entry = a ++ "." ++ b → has_dot a = false →
  random_prefix combos g = Return (a, b, (randbelow (length combos) g).2).
Proof.
  intros Hentry -> Ha. unfold random_prefix.
  destruct (choice_nonempty combos g) as (x & Hx & ->).
  { intros ->. by rewrite lookup_nil in Hentry. }
  rewrite Hentry in Hx. injection Hx as <-. simpl.
  by rewrite split1_first_dot.
Qed.

(** A draw from a usable pool succeeds with the two sides of the first
    dot of one of its entries. *)
Lemma random_prefix_ok combos g :
  combos ≠ [] → Forall (λ c, has_dot c = true) combos →
  ∃ entry a b g',
    random_prefix combos g = Return (a, b, g') ∧ entry ∈ combos ∧
    entry = a ++ "." ++ b ∧ has_dot a = false.
Proof.
  intros Hne Hdots.
  destruct (choice_nonempty combos g Hne) as (entry & Hentry & _).
  assert (Hin : entry ∈ combos) by (by eapply list_elem_of_lookup_2).
  destruct (has_dot_split entry) as (a & b & Heq & Ha).
  { rewrite list.Forall_forall in Hdots. by apply Hdots. }
  exists entry, a, b, (randbelow (length combos) g).2.
  split_and!; [|done..]. by eapply random_prefix_entry.
Qed.

(** An entry without a dot cannot be unpacked into two names. *)
Lemma random_prefix_no_dot combos g entry :
  combos !! (randbelow (length combos) g).1 = Some entry →
  has_dot entry = false →
  random_prefix combos g = Raise ValueError.
Proof.
  intros Hentry Hdot. unfold random_prefix.
  destruct (choice_nonempty combos g) as (x & Hx & ->).
  { intros ->. by rewrite lookup_nil in Hentry. }
  rewrite Hentry in Hx. injection Hx as <-. simpl.
  by rewrite split1_no_dot.
Qed.

End RandomFacts.

Lemma append_cons (c : char) (a b : str) : (c :: a) ++ b = c :: (a ++ b).
Proof. reflexivity. Qed.

Lemma append_nil (b : str) : "" ++ b = b.
Proof. reflexivity. Qed.

(** The first dot of a text determines both of its sides. *)
Lemma first_dot_unique a b a' b' :
  a ++ "." ++ b = a' ++ "." ++ b' →
  has_dot a = false → has_dot a' = false → a = a' ∧ b = b'.
Proof.
  revert a'. induction a as [|c a IH]; intros [|c' a'];
    rewrite ?append_nil, ?append_cons; simpl;
    intros [= Heq1 Heq2] || intros [= Heq1].
  - by subst.
  - subst c'. intros _. by rewrite char_eqb_refl.
  - subst c. by rewrite char_eqb_refl.
  - subst c'. destruct (char_eqb c "."); simpl; [done|].
    intros Ha Ha'. destruct (IH a' Heq2 Ha Ha') as [-> ->]. done.
Qed.

Lemma elem_of_build_combos mapping entry :
  entry ∈ build_combos mapping ↔
  ∃ cat schemas schema,
    (cat, schemas) ∈ mapping ∧ schema ∈ schemas ∧
    entry = cat ++ "." ++ schema.
Proof.
  unfold build_combos. rewrite list_elem_of_bind. split.
  - intros ([cat schemas] & Hin & Hmap).
    apply list_elem_of_bind in Hin as (schema & Hin & Hschema).
    apply list_elem_of_singleton in Hin. eauto 10.
  - intros (cat & schemas & schema & Hmap & Hschema & ->).
    exists (cat, schemas). split; [|done].
    apply list_elem_of_bind. exists schema. split; [|done].
    by apply list_elem_of_singleton.
Qed.

(** When no catalog name of the mapping contains a dot, the two sides of
    the first dot of a pool entry are a catalog of the mapping and one of
    its own schemas. *)
Lemma pool_entry_components mapping entry c s :
  Forall (λ cs, has_dot cs.1 = false) mapping →
  entry ∈ build_combos mapping →
  entry = c ++ "." ++ s → has_dot c = false →
  ∃ schemas, (c, schemas) ∈ mapping ∧ s ∈ schemas.
Proof.
  intros Hcats Hin -> Hc.
  apply elem_of_build_combos in Hin as (cat & schemas & schema & Hmap & Hs & Heq).
  rewrite list.Forall_forall in Hcats. pose proof (Hcats _ Hmap) as Hcat.
  simpl in Hcat. destruct (first_dot_unique _ _ _ _ Heq Hc Hcat) as [-> ->].
  eauto.
Qed.

(** The pool as [main] builds it has a dot in every entry, and stays
    usable through every call. *)
Lemma build_combos_dotted mapping :
  Forall (λ c, has_dot c = true) (build_combos mapping).
Proof.
  unfold build_combos. induction mapping as [|[cat schemas] mapping IH];
    [constructor|].
  change (Forall (λ c, has_dot c = true)
            ((schema ← schemas; [cat ++ "." ++ schema]) ++
             (mapping ≫= λ '(cat, schemas),
                           schema ← schemas; [cat ++ "." ++ schema]))).
  apply Forall_app. split; [|done].
  clear IH. induction schemas as [|schema schemas IH]; [constructor|].
  constructor; [|done]. rewrite !has_dot_app. simpl. by rewrite orb_true_r.
Qed.

(** ** The loop over the table nodes of one statement *)

Lemma set_both_data a b d :
  set_db b (set_catalog a d) = Node (cls d) (name d) (alias d) (AStr b) (AStr a).
Proof. done. Qed.

Section InvariantFacts.
Context `{Unicode}.

Lemma partly_rewritten_refl combos stmt : partly_rewritten combos stmt stmt.
Proof. intros p. by left. Qed.

Lemma partly_rewritten_cls combos stmt cur p :
  partly_rewritten combos stmt cur →
  cls <$> data_at p cur = cls <$> data_at p stmt.
Proof.
  intros Hinv. destruct (Hinv p) as [->|(d0 & d & -> & _ & Hd & ->)]; [done|].
  destruct Hd as (entry & c & s & _ & _ & _ & ->). done.
Qed.

Lemma partly_rewritten_parent combos stmt cur p :
  partly_rewritten combos stmt cur →
  parent_is_cte p cur = parent_is_cte p stmt.
Proof.
  intros Hinv. unfold parent_is_cte. destruct p as [|i p]; [done|].
  pose proof (partly_rewritten_cls _ _ _ (removelast (i :: p)) Hinv) as Hc.
  destruct (data_at (removelast (i :: p)) cur),
           (data_at (removelast (i :: p)) stmt); simpl in Hc; congruence.
Qed.

End InvariantFacts.

Section RewriterFacts.
Context `{Random} `{Unicode}.

(** Setting both qualifiers of an eligible node re-establishes the
    invariant and settles that node. *)
Lemma qualify_step combos stmt cur p d0 d a b entry :
  partly_rewritten combos stmt cur →
  data_at p stmt = Some d0 → eligible stmt p d0 = true →
  data_at p cur = Some d →
  cls d = cls d0 → name d = name d0 → alias d = alias d0 →
  entry ∈ combos → entry = a ++ "." ++ b → has_dot a = false →
  let cur' := update p (set_db b ∘ set_catalog a) cur in
  partly_rewritten combos stmt cur' ∧ settled combos stmt p cur' ∧
  ∀ q, settled combos stmt q cur → settled combos stmt q cur'.
Proof.
  intros Hinv Hd0 Hel Hd Hcls Hname Halias Hin Hentry Ha cur'.
  assert (Hp : data_at p cur' = Some (Node (cls d0) (name d0) (alias d0)
                                           (AStr b) (AStr a))).
  { unfold cur'. rewrite data_at_update_eq, Hd. simpl.
    by rewrite set_both_data, Hcls, Hname, Halias. }
  assert (Hdr : drawn combos d0 (Node (cls d0) (name d0) (alias d0)
                                      (AStr b) (AStr a))).
  { by exists entry, a, b. }
  assert (Hset : settled combos stmt p cur').
  { intros d0' Hd0' _. rewrite Hd0 in Hd0'. injection Hd0' as <-. eauto. }
  split_and!; [|done|].
  - intros q. destruct (decide (p = q)) as [<-|Hne].
    + right. eauto 10.
    + unfold cur'. rewrite data_at_update_ne by done. apply Hinv.
  - intros q Hq. destruct (decide (p = q)) as [<-|Hne]; [done|].
    intros d1 Hd1 Hel1. unfold cur'. rewrite data_at_update_ne by done.
    by apply Hq.
Qed.

(** One iteration of the loop over [find_all Table stmt]. *)
Lemma rewrite_table_step combos stmt cur g p :
  combos ≠ [] → Forall (λ c, has_dot c = true) combos →
  partly_rewritten combos stmt cur →
  p ∈ find_all Table stmt →
  ∃ st', rewrite_table combos (cte_names stmt) (cur, g) p = Return st' ∧
         partly_rewritten combos stmt st'.1 ∧
         settled combos stmt p st'.1 ∧
         ∀ q, settled combos stmt q cur → settled combos stmt q st'.1.
Proof.
  intros Hne Hdots Hinv Hp.
  apply elem_of_find_all in Hp as (d0 & Hd0 & Hc).
  unfold rewrite_table.
  rewrite (partly_rewritten_parent combos stmt cur p Hinv).
  destruct (random_prefix_ok combos g Hne Hdots)
    as (entry & a & b & g' & Hdraw & Hin & Hentry & Ha).
  destruct (Hinv p) as [Hsame|(d0' & d & Hd0' & Hel & Hdr & Hd)].
  - (* the node is as the parser left it *)
    rewrite Hsame, Hd0.
    destruct (eligible stmt p d0) eqn:Hel.
    + unfold eligible, qualified, cte_exempt in Hel.
      apply andb_true_iff in Hel as [Hel Hex].
      apply andb_true_iff in Hel as [_ Hq].
      apply negb_true_iff in Hq. apply negb_true_iff in Hex.
      apply orb_false_iff in Hex as [Hpar Hmem].
      rewrite Hq, Hpar, Hmem, Hdraw. simpl.
      eexists (_, _). split; [done|]. simpl.
      eapply (qualify_step combos stmt cur p d0 _ a b entry); try done.
      * unfold eligible, qualified, cte_exempt.
        by rewrite Hc, Hq, Hpar, Hmem.
      * by rewrite Hsame.
    + assert (Hskip : ∀ k : outcome (expr * rng),
        (if truthy (db d0) || truthy (catalog d0) then Return (cur, g)
         else if parent_is_cte p stmt then Return (cur, g)
         else if mem (lower (name d0)) (cte_names stmt) then Return (cur, g)
         else k) = Return (cur, g)).
      { intros k. unfold eligible, qualified, cte_exempt in Hel.
        rewrite Hc in Hel. simpl in Hel.
        destruct (truthy (db d0) || truthy (catalog d0)); [done|].
        destruct (parent_is_cte p stmt); [done|].
        by destruct (mem (lower (name d0)) (cte_names stmt)). }
      rewrite Hskip. exists (cur, g). split_and!; [done..| |done].
      intros d1 Hd1 Hel1. rewrite Hd0 in Hd1. injection Hd1 as <-. congruence.
  - (* the node already received qualifiers *)
    rewrite Hd0 in Hd0'. injection Hd0' as <-. rewrite Hd.
    assert (Hset : settled combos stmt p cur).
    { intros d1 Hd1 _. rewrite Hd0 in Hd1. injection Hd1 as <-. eauto. }
    destruct Hdr as (entry0 & c0 & s0 & Hin0 & Hentry0 & Hc0 & ->). simpl.
    pose proof Hel as Hel'. unfold eligible, qualified, cte_exempt in Hel'.
    apply andb_true_iff in Hel' as [_ Hex]. apply negb_true_iff in Hex.
    apply orb_false_iff in Hex as [Hpar Hmem]. rewrite Hpar, Hmem.
    destruct (nonempty s0 || nonempty c0).
    + exists (cur, g). by split_and!.
    + rewrite Hdraw. simpl. eexists (_, _). split; [done|]. simpl.
      eapply (qualify_step combos stmt cur p d0 _ a b entry); done.
Qed.

Lemma rewrite_tables_ok combos stmt g :
  combos ≠ [] → Forall (λ c, has_dot c = true) combos →
  ∃ stmt' g',
    for_each (rewrite_table combos (cte_names stmt)) (find_all Table stmt)
             (stmt, g) = Return (stmt', g') ∧
    rewritten combos stmt stmt'.
Proof.
  intros Hne Hdots.
  destruct (for_each_post
              (λ st : expr * rng, partly_rewritten combos stmt st.1)
              (λ p st, settled combos stmt p st.1)
              (rewrite_table combos (cte_names stmt))
              (find_all Table stmt) (stmt, g))
    as ([stmt' g'] & Hrun & Hinv & Hall & _).
  { apply partly_rewritten_refl. }
  { intros [cur g0] p Hp Hinv. by apply rewrite_table_step. }
  exists stmt', g'. split; [done|]. simpl in *. intros p.
  destruct (data_at p stmt) as [d0|] eqn:Hd0.
  - destruct (eligible stmt p d0) eqn:Hel.
    + apply (Hall p); [|done..]. apply elem_of_find_all. exists d0.
      split; [done|]. unfold eligible in Hel.
      by repeat (apply andb_true_iff in Hel as [Hel _]).
    + destruct (Hinv p) as [->|(d0' & d & Hd0' & Hel' & _)]; [done|].
      congruence.
  - destruct (Hinv p) as [->|(d0' & d & Hd0' & _)]; [done|]. congruence.
Qed.

Lemma rewritten_weaken combos combos' stmt stmt' :
  (∀ x, x ∈ combos → x ∈ combos') →
  rewritten combos stmt stmt' → rewritten combos' stmt stmt'.
Proof.
  intros Hsub Hrw p. specialize (Hrw p).
  destruct (data_at p stmt) as [d0|]; [|done].
  destruct (eligible stmt p d0); [|done].
  destruct Hrw as (d & (entry & c & s & Hin & Hrest) & Hd).
  exists d. split; [|done]. exists entry, c, s. split; [auto|done].
Qed.

(** The loop over the statements of one file. *)
Lemma rewrite_statements_from combos es g done :
  combos ≠ [] → Forall (λ c, has_dot c = true) combos →
  ∃ es' g',
    for_each (rewrite_stmt combos) (Some <$> es) (done, g)
      = Return (done ++ es', g') ∧
    Forall2 (λ e e', rewritten combos e e' ∧
                     (find_all Table e = [] → e' = e)) es es'.
Proof.
  intros Hne Hdots. revert g done.
  induction es as [|e es IH]; intros g done; simpl.
  - exists [], g. by rewrite app_nil_r.
  - destruct (rewrite_tables_ok combos e g Hne Hdots) as (e' & g1 & Hrun & Hrw).
    rewrite Hrun. simpl.
    change (list_fmap expr (option expr) Some es) with (Some <$> es).
    destruct (IH g1 (done ++ [e'])) as (es' & g' & -> & Hall).
    exists (e' :: es'), g'. rewrite <- app_assoc. split; [done|].
    constructor; [|done]. split; [done|]. intros Hnil.
    rewrite Hnil in Hrun. simpl in Hrun. congruence.
Qed.

Lemma tableless_find_all stmt : tableless stmt → find_all Table stmt = [].
Proof.
  intros Hno. destruct (find_all Table stmt) as [|p ps] eqn:Hfind; [done|].
  assert (Hp : p ∈ find_all Table stmt) by (rewrite Hfind; left).
  apply elem_of_find_all in Hp as (d & Hd & Hc).
  apply class_eqb_eq in Hc. by destruct (Hno p d).
Qed.

End RewriterFacts.

Section RewriteSqlFacts.
Context `{Random} `{SqlGlot} `{Unicode}.

(** A file that parses into statements, rewritten with a usable pool:
    the call returns the joined serialisations of the rewritten
    statements. *)
Lemma rewrite_sql_ok g sql combos es :
  parse sql = Statements (Some <$> es) →
  combos ≠ [] → Forall (λ c, has_dot c = true) combos →
  ∃ es' g',
    rewrite_statements (shuffle combos g).1 (Some <$> es) (shuffle combos g).2
      = Return (es', g') ∧
    rewrite_sql g sql combos
      = Call (Return (join (";" ++ nl) (to_sql <$> es')))
             (shuffle combos g).1 [] ∧
    Forall2 (λ e e', rewritten combos e e' ∧
                     (find_all Table e = [] → e' = e)) es es'.
Proof.
  intros Hparse Hne Hdots. unfold rewrite_sql. rewrite Hparse.
  pose proof (shuffle_perm combos g) as Hperm.
  destruct (shuffle combos g) as [combos' g1]. simpl in Hperm.
  destruct (rewrite_statements_from combos' es g1 [])
    as (es' & g' & Hrun & Hall).
  { intros ->. apply Permutation_nil_l in Hperm. done. }
  { by rewrite Hperm. }
  unfold rewrite_statements. rewrite Hrun. simpl. exists es', g'.
  split_and!; [done..|].
  revert Hall. apply Forall2_impl. intros e e' [Hrw Hnil]. split; [|done].
  eapply rewritten_weaken; [|done]. intros x. by rewrite Hperm.
Qed.

End RewriteSqlFacts.


Lemma mem_elem_of x names : mem x names = true ↔ x ∈ names.
Proof.
  unfold mem. rewrite existsb_exists. split.
  - intros (y & Hy & Heq). apply str_eqb_eq in Heq as ->.
    by apply list_elem_of_In.
  - intros Hx. exists x. split; [by apply list_elem_of_In|apply str_eqb_refl].
Qed.

Lemma nonempty_ne s : nonempty s = true ↔ s ≠ "".
Proof. by destruct s. Qed.

Section ExemptionFacts.
Context `{Unicode}.

(** Every CTE of the statement with a non-empty name contributes its
    lower-cased name, wherever in the tree it sits. *)
Lemma cte_names_complete stmt q c :
  data_at q stmt = Some c → cls c = CTE → alias_or_name c ≠ "" →
  lower (alias_or_name c) ∈ cte_names stmt.
Proof.
  intros Hc Hcls Hne. unfold cte_names. apply list_elem_of_omap.
  exists q. split.
  - apply elem_of_find_all. exists c. split; [done|]. by apply class_eqb_eq.
  - rewrite Hc. simpl. apply nonempty_ne in Hne. by rewrite Hne.
Qed.

Lemma rewritten_not_eligible combos stmt stmt' p d :
  rewritten combos stmt stmt' → data_at p stmt = Some d →
  eligible stmt p d = false → data_at p stmt' = Some d.
Proof. intros Hrw Hd Hel. specialize (Hrw p). by rewrite Hd, Hel in Hrw. Qed.

End ExemptionFacts.

(** * The claims *)

Section Claims.
Context `{Random} `{SqlGlot} `{Unicode}.


(** C2. Under the same conditions, a table node whose name equals, up
    to case, the name introduced by any CTE node of the same statement
    (wherever that CTE sits in the tree), or that sits directly under a
    CTE node, is the same after the rewrite: it receives no qualifier. *)
Theorem cte_names_are_never_qualified g sql combos es :
  parse sql = Statements (Some <$> es) →
  combos ≠ [] → Forall (λ c, has_dot c = true) combos →
  ∃ es' g',
    rewrite_statements (shuffle combos g).1 (Some <$> es) (shuffle combos g).2
      = Return (es', g') ∧
    result (rewrite_sql g sql combos)
      = Return (join (";" ++ nl) (to_sql <$> es')) ∧
    length es' = length es ∧
    ∀ i stmt stmt' p d,
      es !! i = Some stmt → es' !! i = Some stmt' →
      data_at p stmt = Some d → cls d = Table →
      (∃ q c, data_at q stmt = Some c ∧ cls c = CTE ∧
              alias_or_name c ≠ "" ∧
              lower (name d) = lower (alias_or_name c))
      ∨ parent_is_cte p stmt = true →
      data_at p stmt' = Some d.
Proof.
  intros Hparse Hne Hdots.
  destruct (rewrite_sql_ok g sql combos es Hparse Hne Hdots)
    as (es' & g' & Hloop & -> & Hall).
  exists es', g'. split_and!; [done..|symmetry; by eapply Forall2_length|].
  intros i stmt stmt' p d Hi Hi' Hd Hcls Hcte.
  destruct (Forall2_lookup_lr _ _ _ _ _ _ Hall Hi Hi') as [Hrw _].
  eapply rewritten_not_eligible; [done..|].
  unfold eligible, cte_exempt.
  destruct Hcte as [(q & c & Hc & Hccls & Hcne & Hname)| ->].
  - rewrite Hname. pose proof (cte_names_complete stmt q c Hc Hccls Hcne) as Hin.
    apply mem_elem_of in Hin. rewrite Hin.
    by rewrite orb_true_r, andb_false_r.
  - by rewrite andb_false_r.
Qed.

(** C3. Under the same conditions, a table node that bears a qualifier
    (a truthy value under "db" or under "catalog") is the same after the
    rewrite: class, name, alias and both qualifiers are unchanged. *)
Theorem qualified_tables_are_left_alone g sql combos es :
  parse sql = Statements (Some <$> es) →
  combos ≠ [] → Forall (λ c, has_dot c = true) combos →
  ∃ es' g',
    rewrite_statements (shuffle combos g).1 (Some <$> es) (shuffle combos g).2
      = Return (es', g') ∧
    result (rewrite_sql g sql combos)
      = Return (join (";" ++ nl) (to_sql <$> es')) ∧
    length es' = length es ∧
    ∀ i stmt stmt' p d,
      es !! i = Some stmt → es' !! i = Some stmt' →
      data_at p stmt = Some d → cls d = Table →
      truthy (db d) = true ∨ truthy (catalog d) = true →
      data_at p stmt' = Some d.
Proof.
  intros Hparse Hne Hdots.
  destruct (rewrite_sql_ok g sql combos es Hparse Hne Hdots)
    as (es' & g' & Hloop & -> & Hall).
  exists es', g'. split_and!; [done..|symmetry; by eapply Forall2_length|].
  intros i stmt stmt' p d Hi Hi' Hd Hcls Hq.
  destruct (Forall2_lookup_lr _ _ _ _ _ _ Hall Hi Hi') as [Hrw _].
  eapply rewritten_not_eligible; [done..|].
  unfold eligible, qualified.
  destruct Hq as [-> | ->]; by rewrite ?orb_true_r, ?andb_false_r.
Qed.

(** C8. Under the same conditions, a statement without any table node
    comes out of the rewrite as the very tree the parser returned, so its
    part of the output is the plain serialisation of the parsed tree. *)
Theorem tableless_statement_is_reserialized g sql combos es :
  parse sql = Statements (Some <$> es) →
  combos ≠ [] → Forall (λ c, has_dot c = true) combos →
  ∃ es' g',
    rewrite_statements (shuffle combos g).1 (Some <$> es) (shuffle combos g).2
      = Return (es', g') ∧
    result (rewrite_sql g sql combos)
      = Return (join (";" ++ nl) (to_sql <$> es')) ∧
    length es' = length es ∧
    ∀ i stmt stmt',
      es !! i = Some stmt → es' !! i = Some stmt' →
      tableless stmt → stmt' = stmt ∧ to_sql stmt' = to_sql stmt.
Proof.
  intros Hparse Hne Hdots.
  destruct (rewrite_sql_ok g sql combos es Hparse Hne Hdots)
    as (es' & g' & Hloop & -> & Hall).
  exists es', g'. split_and!; [done..|symmetry; by eapply Forall2_length|].
  intros i stmt stmt' Hi Hi' Hno.
  destruct (Forall2_lookup_lr _ _ _ _ _ _ Hall Hi Hi') as [_ Hsame].
  rewrite Hsame; [done|]. by apply tableless_find_all.
Qed.

(** C4. When [sqlglot.parse] raises a ParseError with the message [e] on
    the cleaned text of a file, the call returns that very text, prints
    one line, the warning that the statement was left unchanged followed
    by [e], and leaves the pool as it was.  In the file loop the cleaned
    text is then what is written for that file (also in its single-line
    form), nothing is raised, and the loop goes on with the remaining
    files, the next generator and the same pool: what it does for them is
    what it would do had they been the whole run from that point. *)
Theorem parse_error_passes_text_through
    g sql combos e output_dir entropy k src rest :
  parse sql = ParseError e →
  strip_comments_and_semicolon (src_text src) = sql →
  entropy k = g →
  let line := "⚠  sqlglot failed to parse statement — left unchanged:"
                ++ nl ++ "    " ++ e in
  rewrite_sql g sql combos = Call (Return sql) combos [line] ∧
  process_files output_dir entropy k combos (src :: rest) =
    let r := process_files output_dir entropy (S k) combos rest in
    Run ([Read (src_name src);
          Print line;
          Write (dst_name output_dir (src_name src)) sql;
          Write (single_dst (src_name src)) (single_line sql);
          Print (ok_line output_dir (src_name src))] ++ events r)
        (pool r) (status r).
Proof.
  intros Hparse Hclean Hg line.
  assert (Hcall : rewrite_sql g sql combos = Call (Return sql) combos [line]).
  { unfold rewrite_sql. by rewrite Hparse. }
  split; [done|]. simpl. by rewrite Hclean, Hg, Hcall.
Qed.

(** A usable pool stays usable through a call. *)
Lemma rewrite_sql_keeps_usable g sql combos :
  combos ≠ [] → Forall (λ c, has_dot c = true) combos →
  combos_after (rewrite_sql g sql combos) ≠ [] ∧
  Forall (λ c, has_dot c = true) (combos_after (rewrite_sql g sql combos)).
Proof.
  intros Hne Hdots.
  assert (Hperm : combos_after (rewrite_sql g sql combos) ≡ₚ combos).
  { unfold rewrite_sql. destruct (parse sql); [|done..].
    pose proof (shuffle_perm combos g) as Hperm.
    by destruct (shuffle combos g). }
  split; [|by rewrite Hperm].
  intros Hnil. rewrite Hnil in Hperm. by apply Permutation_nil_l in Hperm.
Qed.

(** C5, as amended.  A call of [rewrite_sql] leaves the caller's pool a
    permutation of what it was: the same entries with the same
    multiplicities, in an order that the in-place shuffle may have
    changed. *)
Theorem rewrite_sql_permutes_combos g sql combos :
  combos_after (rewrite_sql g sql combos) ≡ₚ combos.
Proof.
  unfold rewrite_sql. destruct (parse sql); [|done..].
  pose proof (shuffle_perm combos g) as Hperm.
  by destruct (shuffle combos g).
Qed.

End Claims.

(** C9. The pool check of [main] exits exactly when the pool is empty, and
    accepts the pool otherwise; the pool is empty exactly when every
    catalog of the mapping has an empty schema list. *)
Theorem combo_pool_fails_iff_empty (mapping : list (str * list str)) :
  (combo_pool mapping
     = Raise (SystemExit
                "Mapping contains no <catalog>.<schema> combinations to use.")
   ↔ build_combos mapping = []) ∧
  (combo_pool mapping = Return (build_combos mapping)
   ↔ build_combos mapping ≠ []) ∧
  (build_combos mapping = [] ↔ Forall (λ cs, cs.2 = []) mapping).
Proof.
  split_and!.
  - unfold combo_pool. by destruct (build_combos mapping).
  - unfold combo_pool. by destruct (build_combos mapping).
  - unfold build_combos. induction mapping as [|[cat schemas] mapping IH].
    + split; [constructor|done].
    + change (((λ '(cat, schemas), schema ← schemas; [cat ++ "." ++ schema])
               (cat, schemas)
               ++ (mapping ≫= λ '(cat, schemas),
                                schema ← schemas; [cat ++ "." ++ schema])
               = []) ↔ Forall (λ cs, cs.2 = []) ((cat, schemas) :: mapping)).
      simpl. split.
      * intros Happ. apply app_eq_nil in Happ as [Hs Hrest].
        constructor; [by destruct schemas|by apply IH].
      * intros Hall. apply list.Forall_cons in Hall as [Hs Hrest].
        simpl in Hs. subst schemas. simpl. by apply IH.
Qed.

(** ** The file loop *)

Section MainFacts.
Context `{Random} `{SqlGlot} `{Unicode}.

Lemma process_files_app output_dir entropy k combos pre post :
  process_files output_dir entropy k combos (pre ++ post) =
    let r1 := process_files output_dir entropy k combos pre in
    match status r1 with
    | Return _ =>
        let r2 := process_files output_dir entropy (k + length pre)
                                (pool r1) post in
        Run (events r1 ++ events r2) (pool r2) (status r2)
    | Raise _ => r1
    end.
Proof.
  revert k combos. induction pre as [|src pre IH]; intros k combos.
  - simpl. rewrite Nat.add_0_r. by destruct (process_files _ _ _ _ post).
  - simpl.
    destruct (result (rewrite_sql (entropy k)
                (strip_comments_and_semicolon (src_text src)) combos));
      [|done].
    rewrite IH. simpl.
    destruct (status (process_files output_dir entropy (S k) _ pre)) eqn:Hst.
    + simpl. rewrite Nat.add_succ_r. f_equal.
      by rewrite <- !app_assoc.
    + by rewrite Hst.
Qed.

(** What the loop does for one file depends on the generator of that
    call only through its state, not on its position in the run. *)
Lemma process_files_one output_dir entropy k combos src :
  process_files output_dir entropy k combos [src] =
  process_files output_dir (λ _, entropy k) 0 combos [src].
Proof. done. Qed.

(** C6, as amended.  Each call of [rewrite_sql] draws from the generator
    created in that call.  What the run does for a file is determined by
    the file, the order in which the earlier calls left the pool, and the
    state of that call's own generator: two runs that reach the file with
    the same pool order and hand it the same generator do the same for
    it, whatever files came before and however many draws they made. *)
Theorem file_draws_ignore_earlier_draw_counts
    output_dir entropy1 entropy2 combos1 combos2 pre1 pre2 src :
  let r1 := process_files output_dir entropy1 0 combos1 pre1 in
  let r2 := process_files output_dir entropy2 0 combos2 pre2 in
  status r1 = Return () → status r2 = Return () →
  pool r1 = pool r2 →
  entropy1 (length pre1) = entropy2 (length pre2) →
  ∃ tail,
    tail = events (process_files output_dir (λ _, entropy1 (length pre1)) 0
                                 (pool r1) [src]) ∧
    events (process_files output_dir entropy1 0 combos1 (pre1 ++ [src]))
      = events r1 ++ tail ∧
    events (process_files output_dir entropy2 0 combos2 (pre2 ++ [src]))
      = events r2 ++ tail.
Proof.
  intros r1 r2 Hok1 Hok2 Hpool Hgen. subst r1 r2. eexists. split; [done|].
  rewrite !process_files_app. cbv zeta. rewrite Hok1, Hok2. simpl plus.
  rewrite (process_files_one _ entropy1), (process_files_one _ entropy2).
  by rewrite Hpool, Hgen.
Qed.

Context `{Builtins}.

(** C7, as amended.  When the decoded document is not a dict, or the
    pool built from the loaded mapping is empty, [main] exits with a
    message before it reads, rewrites or writes any file. *)
Theorem bad_root_or_empty_pool_aborts_first
    output_dir data sql_files entropy :
  is_dict data = false ∨
  (∃ mapping, load_mapping (Return data) = Return mapping ∧
              build_combos mapping = []) →
  ∃ msg, main output_dir (Return data) sql_files entropy
         = Run [] [] (Raise (SystemExit msg)).
Proof.
  intros [Hroot|(mapping & Hload & Hempty)]; unfold main.
  - eexists. by destruct data.
  - rewrite Hload. simpl. unfold combo_pool. rewrite Hempty. by eexists.
Qed.

(** C10. The entry that [choice] picks is split at its first dot only:
    when it contains a dot, [random_prefix] returns as catalog the
    dot-free text before that dot and as schema everything after it, and
    does not raise.  Nothing validates the names on the way into the
    pool: for any catalog and schema text, empty or dotted, the mapping is
    loaded and its one entry is accepted into the pool. *)
Theorem random_prefix_splits_at_first_dot g combos entry :
  combos !! (randbelow (length combos) g).1 = Some entry →
  has_dot entry = true →
  (∃ catalog schema,
     random_prefix combos g
       = Return (catalog, schema, (randbelow (length combos) g).2) ∧
     entry = catalog ++ "." ++ schema ∧ has_dot catalog = false) ∧
  (∀ cat schema,
     (mapping ← load_mapping (Return (PDict [(PStr cat, PList [PStr schema])]));
      combo_pool mapping)
     = Return [cat ++ "." ++ schema]).
Proof.
  intros Hentry Hdot. split.
  - destruct (has_dot_split entry Hdot) as (a & b & Heq & Ha).
    exists a, b. split_and!; [|done..]. by eapply random_prefix_entry.
  - intros cat schema. simpl. by rewrite !py_str_str.
Qed.

End MainFacts.

(** * The theorems at concrete inputs *)


(** The node the witness above is about: [orders] in the FROM clause. *)
Example join_query_orders_is_eligible :
  data_at [1; 0] Demo.q_join = Some (Node Table "orders" "o" ANone ANone) ∧
  @cte_exempt Demo.unicode Demo.q_join [1; 0]
     (Node Table "orders" "o" ANone ANone) = false.
Proof. split; reflexivity. Qed.

Lemma cte_names_are_never_qualified_witness :
  @parse Demo.sqlglot Demo.sql_cte = Statements (Some <$> [Demo.q_cte]) ∧
  Demo.pool2 ≠ [] ∧
  Forall (λ c, has_dot c = true) Demo.pool2 ∧
  ∃ es' g',
    @rewrite_statements Demo.tape Demo.unicode
      (@shuffle Demo.tape str Demo.pool2 [0; 1; 0]).1 (Some <$> [Demo.q_cte])
      (@shuffle Demo.tape str Demo.pool2 [0; 1; 0]).2
      = Return (es', g') ∧
    result (@rewrite_sql Demo.tape Demo.sqlglot Demo.unicode [0; 1; 0]
                         Demo.sql_cte Demo.pool2)
      = Return (join (";" ++ nl) (@to_sql Demo.sqlglot <$> es')) ∧
    length es' = length [Demo.q_cte] ∧
    ∀ i stmt stmt' p d,
      [Demo.q_cte] !! i = Some stmt → es' !! i = Some stmt' →
      data_at p stmt = Some d → cls d = Table →
      (∃ q c, data_at q stmt = Some c ∧ cls c = CTE ∧
              alias_or_name c ≠ "" ∧
              @lower Demo.unicode (name d)
                = @lower Demo.unicode (alias_or_name c))
      ∨ parent_is_cte p stmt = true →
      data_at p stmt' = Some d.
Proof.
  split_and!; [reflexivity|discriminate|repeat constructor|].
  apply (@cte_names_are_never_qualified Demo.tape Demo.sqlglot Demo.unicode);
    [reflexivity|discriminate|repeat constructor].
Defined.

(** The nodes the witness above is about: the reference [Recent] of the
    outer query and the CTE [recent] that exempts it. *)
Example cte_query_reference_matches :
  data_at [1; 1; 0] Demo.q_cte = Some (Node Table "Recent" "" ANone ANone) ∧
  data_at [0] Demo.q_cte = Some (Node CTE "" "recent" ANone ANone) ∧
  alias_or_name (Node CTE "" "recent" ANone ANone) ≠ "" ∧
  @lower Demo.unicode "Recent"
    = @lower Demo.unicode (alias_or_name (Node CTE "" "recent" ANone ANone)).
Proof. split_and!; done. Qed.

(** The same for a letter outside ASCII: the reference [é] matches the
    CTE [É] and stays as it is, while [orders] in the CTE body is
    qualified. *)
Example accented_reference_matches :
  @parse Cases.sqlglot_more Cases.sql_accent
    = Statements [Some Cases.q_accent] ∧
  data_at [1; 1; 0] Cases.q_accent = Some (Node Table "é" "" ANone ANone) ∧
  data_at [0] Cases.q_accent = Some (Node CTE "" "É" ANone ANone) ∧
  @lower Demo.unicode "é" = @lower Demo.unicode "É" ∧
  @rewrite_sql Demo.tape Cases.sqlglot_more Demo.unicode [1; 1]
               Cases.sql_accent Demo.pool2
  = Call (Return ("WITH É AS (SELECT * FROM postgres1.db2.orders) "
                    ++ "SELECT * FROM é"))
         Demo.pool2 [].
Proof. split_and!; reflexivity. Qed.

Lemma qualified_tables_are_left_alone_witness :
  @parse Demo.sqlglot Demo.sql_qualified
    = Statements (Some <$> [Demo.q_qualified]) ∧
  Demo.pool2 ≠ [] ∧
  Forall (λ c, has_dot c = true) Demo.pool2 ∧
  ∃ es' g',
    @rewrite_statements Demo.tape Demo.unicode
      (@shuffle Demo.tape str Demo.pool2 [0; 1; 0]).1 (Some <$> [Demo.q_qualified])
      (@shuffle Demo.tape str Demo.pool2 [0; 1; 0]).2
      = Return (es', g') ∧
    result (@rewrite_sql Demo.tape Demo.sqlglot Demo.unicode [0; 1; 0]
                         Demo.sql_qualified Demo.pool2)
      = Return (join (";" ++ nl) (@to_sql Demo.sqlglot <$> es')) ∧
    length es' = length [Demo.q_qualified] ∧
    ∀ i stmt stmt' p d,
      [Demo.q_qualified] !! i = Some stmt → es' !! i = Some stmt' →
      data_at p stmt = Some d → cls d = Table →
      truthy (db d) = true ∨ truthy (catalog d) = true →
      data_at p stmt' = Some d.
Proof.
  split_and!; [reflexivity|discriminate|repeat constructor|].
  apply (@qualified_tables_are_left_alone Demo.tape Demo.sqlglot Demo.unicode);
    [reflexivity|discriminate|repeat constructor].
Defined.

(** The node the witness above is about: [sales.orders]. *)
Example qualified_query_orders_has_db :
  data_at [1; 0] Demo.q_qualified
    = Some (Node Table "orders" "" (AIdent "sales") ANone) ∧
  truthy (db (Node Table "orders" "" (AIdent "sales") ANone)) = true.
Proof. split; reflexivity. Qed.

Lemma tableless_statement_is_reserialized_witness :
  @parse Demo.sqlglot Demo.sql_const = Statements (Some <$> [Demo.q_const]) ∧
  Demo.pool2 ≠ [] ∧
  Forall (λ c, has_dot c = true) Demo.pool2 ∧
  ∃ es' g',
    @rewrite_statements Demo.tape Demo.unicode
      (@shuffle Demo.tape str Demo.pool2 [0; 1; 0]).1 (Some <$> [Demo.q_const])
      (@shuffle Demo.tape str Demo.pool2 [0; 1; 0]).2
      = Return (es', g') ∧
    result (@rewrite_sql Demo.tape Demo.sqlglot Demo.unicode [0; 1; 0]
                         Demo.sql_const Demo.pool2)
      = Return (join (";" ++ nl) (@to_sql Demo.sqlglot <$> es')) ∧
    length es' = length [Demo.q_const] ∧
    ∀ i stmt stmt',
      [Demo.q_const] !! i = Some stmt → es' !! i = Some stmt' →
      tableless stmt →
      stmt' = stmt ∧ @to_sql Demo.sqlglot stmt' = @to_sql Demo.sqlglot stmt.
Proof.
  split_and!; [reflexivity|discriminate|repeat constructor|].
  apply (@tableless_statement_is_reserialized Demo.tape Demo.sqlglot
           Demo.unicode);
    [reflexivity|discriminate|repeat constructor].
Defined.

(** The statement the witness above is about has no table node. *)
Example const_query_is_tableless : tableless Demo.q_const.
Proof.
  intros p d. destruct p as [|[|i] [|j p]]; simpl; try done;
    intros [= <-]; done.
Qed.

Lemma parse_error_passes_text_through_witness :
  let src := Source "q2.sql" ("-- cut short" ++ nl ++ "SELECT * FROM (orders;") in
  let rest := [Source "q3.sql" Demo.sql_join] in
  let entropy : nat → list nat := λ _, [0; 1; 0] in
  let line := "⚠  sqlglot failed to parse statement — left unchanged:"
                ++ nl ++ "    " ++ "Expecting )" in
  @parse Demo.sqlglot Demo.sql_truncated = ParseError "Expecting )" ∧
  strip_comments_and_semicolon (src_text src) = Demo.sql_truncated ∧
  entropy 1 = [0; 1; 0] ∧
  @rewrite_sql Demo.tape Demo.sqlglot Demo.unicode [0; 1; 0]
               Demo.sql_truncated Demo.pool2
    = Call (Return Demo.sql_truncated) Demo.pool2 [line] ∧
  @process_files Demo.tape Demo.sqlglot Demo.unicode false entropy 1
                 Demo.pool2 (src :: rest) =
    let r := @process_files Demo.tape Demo.sqlglot Demo.unicode false entropy 2
                            Demo.pool2 rest in
    Run ([Read (src_name src);
          Print line;
          Write (dst_name false (src_name src)) Demo.sql_truncated;
          Write (single_dst (src_name src)) (single_line Demo.sql_truncated);
          Print (ok_line false (src_name src))] ++ events r)
        (pool r) (status r).
Proof.
  intros src rest entropy line. split_and!; [reflexivity..| |];
    apply (@parse_error_passes_text_through Demo.tape Demo.sqlglot Demo.unicode
             [0; 1; 0] Demo.sql_truncated Demo.pool2 "Expecting )"
             false entropy 1 src rest); reflexivity.
Defined.

(** The run of the witness above, in full: after the file that does not
    parse, the next file is read, rewritten and written, and the run ends
    normally. *)
Example parse_error_run_goes_on :
  @process_files Demo.tape Demo.sqlglot Demo.unicode false (λ _, [0; 1; 0]) 1
     Demo.pool2
     [Source "q2.sql" ("-- cut short" ++ nl ++ "SELECT * FROM (orders;");
      Source "q3.sql" Demo.sql_join]
  = Run [Read "q2.sql";
         Print ("⚠  sqlglot failed to parse statement — left unchanged:"
                  ++ nl ++ "    Expecting )");
         Write "q2_mod.sql" "SELECT * FROM (orders";
         Write "single_line/q2.sql" "SELECT * FROM (orders";
         Print "✔ q2.sql → q2_mod.sql (single-line in single_line/q2.sql)";
         Read "q3.sql";
         Write "q3_mod.sql"
           ("SELECT * FROM postgres1.db1.orders AS o "
              ++ "JOIN postgres1.db2.customers AS c ON o.cid = c.id");
         Write "single_line/q3.sql"
           ("SELECT * FROM postgres1.db1.orders AS o "
              ++ "JOIN postgres1.db2.customers AS c ON o.cid = c.id");
         Print "✔ q3.sql → q3_mod.sql (single-line in single_line/q3.sql)"]
        ["postgres1.db2"; "postgres1.db1"] (Return ()).
Proof. reflexivity. Qed.

Lemma random_prefix_splits_at_first_dot_witness :
  ["pg.sales.eu"] !! (@randbelow Demo.tape (length ["pg.sales.eu"]) [7]).1
    = Some "pg.sales.eu" ∧
  has_dot "pg.sales.eu" = true ∧
  (∃ catalog schema,
     @random_prefix Demo.tape ["pg.sales.eu"] [7]
       = Return (catalog, schema,
                 (@randbelow Demo.tape (length ["pg.sales.eu"]) [7]).2) ∧
     "pg.sales.eu" = catalog ++ "." ++ schema ∧ has_dot catalog = false) ∧
  (∀ cat schema,
     (mapping ← @load_mapping Demo.builtins
                  (Return (PDict [(PStr cat, PList [PStr schema])]));
      combo_pool mapping)
     = Return [cat ++ "." ++ schema]).
Proof.
  split_and!; [reflexivity|reflexivity|..];
  apply (@random_prefix_splits_at_first_dot Demo.tape Demo.builtins [7]
           ["pg.sales.eu"] "pg.sales.eu"); reflexivity.
Defined.

Lemma file_draws_ignore_earlier_draw_counts_witness :
  let src := Source "q.sql" Demo.sql_join in
  let r1 := @process_files Demo.tape Demo.sqlglot Demo.unicode true
              Cases.entropy_c 0 Demo.pool_xy Cases.before_c in
  let r2 := @process_files Demo.tape Demo.sqlglot Demo.unicode true
              Cases.entropy_d 0 Demo.pool_xy Cases.before_d in
  status r1 = Return () ∧ status r2 = Return () ∧
  pool r1 = pool r2 ∧
  Cases.entropy_c (length Cases.before_c)
    = Cases.entropy_d (length Cases.before_d) ∧
  ∃ tail,
    tail = events (@process_files Demo.tape Demo.sqlglot Demo.unicode true
                     (λ _, Cases.entropy_c (length Cases.before_c)) 0
                     (pool r1) [src]) ∧
    events (@process_files Demo.tape Demo.sqlglot Demo.unicode true
              Cases.entropy_c 0 Demo.pool_xy (Cases.before_c ++ [src]))
      = events r1 ++ tail ∧
    events (@process_files Demo.tape Demo.sqlglot Demo.unicode true
              Cases.entropy_d 0 Demo.pool_xy (Cases.before_d ++ [src]))
      = events r2 ++ tail.
Proof.
  intros src r1 r2.
  split_and!; [reflexivity..|].
  apply (@file_draws_ignore_earlier_draw_counts Demo.tape Demo.sqlglot
           Demo.unicode true Cases.entropy_c Cases.entropy_d
           Demo.pool_xy Demo.pool_xy Cases.before_c Cases.before_d src);
    reflexivity.
Defined.

(** The runs of the witness above.  The pool has two entries and the last
    file two tables, which the two draws of its generator qualify
    differently.  Before it the first run made two draws for one file, the
    second none for two files, from generators of their own.  On a stream
    shared by the run the last file of the first run would have found the
    draws used up, and been written with other qualifiers. *)
Example last_file_draws_from_its_own_generator :
  events (@process_files Demo.tape Demo.sqlglot Demo.unicode true
            Cases.entropy_c 0 Demo.pool_xy Cases.before_c)
  = [Read "a.sql";
     Write "a.sql"
       "SELECT * FROM a.x.orders AS o JOIN b.y.customers AS c ON o.cid = c.id";
     Write "single_line/a.sql"
       "SELECT * FROM a.x.orders AS o JOIN b.y.customers AS c ON o.cid = c.id";
     Print "✔ a.sql → a.sql (single-line in single_line/a.sql)"] ∧
  writes (events (@process_files Demo.tape Demo.sqlglot Demo.unicode true
                    Cases.entropy_d 0 Demo.pool_xy Cases.before_d))
  = ["b.sql"; "single_line/b.sql"; "c.sql"; "single_line/c.sql"] ∧
  events (@process_files Demo.tape Demo.sqlglot Demo.unicode true
            (λ _, Cases.entropy_c 1) 0 Demo.pool_xy
            [Source "q.sql" Demo.sql_join])
  = [Read "q.sql";
     Write "q.sql"
       "SELECT * FROM a.x.orders AS o JOIN b.y.customers AS c ON o.cid = c.id";
     Write "single_line/q.sql"
       "SELECT * FROM a.x.orders AS o JOIN b.y.customers AS c ON o.cid = c.id";
     Print "✔ q.sql → q.sql (single-line in single_line/q.sql)"] ∧
  writes_of "q.sql"
    (events (@shared_stream_files Demo.tape Demo.sqlglot Demo.unicode true
               (Cases.entropy_c 0) Demo.pool_xy
               (Cases.before_c ++ [Source "q.sql" Demo.sql_join])))
  = ["SELECT * FROM b.y.orders AS o JOIN b.y.customers AS c ON o.cid = c.id"].
Proof. split_and!; reflexivity. Qed.

Lemma bad_root_or_empty_pool_aborts_first_witness :
  (is_dict (PList [PStr "pg"]) = false ∨
   ∃ mapping,
     @load_mapping Demo.builtins (Return (PList [PStr "pg"])) = Return mapping ∧
     build_combos mapping = []) ∧
  ∃ msg,
    @main Demo.tape Demo.sqlglot Demo.unicode Demo.builtins true
          (Return (PList [PStr "pg"])) Demo.two_joins (λ _, [0; 0; 0])
      = Run [] [] (Raise (SystemExit msg)).
Proof.
  split; [left; reflexivity|].
  apply (@bad_root_or_empty_pool_aborts_first Demo.tape Demo.sqlglot
           Demo.unicode Demo.builtins).
  left. reflexivity.
Defined.

(** * Where the code departs from the claims *)


(** C5, as stated, fails: a call that parses its text shuffles the
    caller's list in place.  Here the draw of the shuffle is 0, which
    exchanges the two entries. *)
Lemma shuffle_reorders_combos :
  combos_after (@rewrite_sql Demo.tape Demo.sqlglot Demo.unicode [0]
                             Demo.sql_const ["a.b"; "c.d"])
    = ["c.d"; "a.b"] ∧
  combos_after (@rewrite_sql Demo.tape Demo.sqlglot Demo.unicode [0]
                             Demo.sql_const ["a.b"; "c.d"])
    ≠ ["a.b"; "c.d"].
Proof. split; [reflexivity|]. vm_compute. discriminate. Qed.

(** C6, as stated, fails.  Two files with two tables each, a pool of two
    entries, and the tape 0,0,0,1,0,0 as every generator's raw draws.  In
    the code the second file starts a generator of its own and replays the
    draws 0,0,0; on one stream shared by the run it would continue with
    1,0,0 and qualify its tables differently.  And two runs of [main] that
    agree on the mapping, the files, their order and the first generator
    still differ in what they write. *)
Lemma runs_do_not_share_one_stream :
  events (@process_files Demo.tape Demo.sqlglot Demo.unicode true
            (λ _, [0; 0; 0; 1; 0; 0]) 0 Demo.pool_xy Demo.two_joins)
    ≠ events (@shared_stream_files Demo.tape Demo.sqlglot Demo.unicode true
                [0; 0; 0; 1; 0; 0] Demo.pool_xy Demo.two_joins) ∧
  Demo.entropy_a 0 = Demo.entropy_b 0 ∧
  events (@main Demo.tape Demo.sqlglot Demo.unicode Demo.builtins true
            (Return Demo.mapping_xy) Demo.two_joins Demo.entropy_a)
    ≠ events (@main Demo.tape Demo.sqlglot Demo.unicode Demo.builtins true
                (Return Demo.mapping_xy) Demo.two_joins Demo.entropy_b).
Proof.
  split_and!; [|reflexivity|]; vm_compute; discriminate.
Qed.

(** C7, as stated, fails: a mapping whose value is a string instead of an
    array is not rejected.  The string is iterated character by character,
    the pool becomes pg.a, pg.b, and the file is read, rewritten and
    written. *)
Lemma string_valued_mapping_is_processed :
  let r := @main Demo.tape Demo.sqlglot Demo.unicode Demo.builtins true
                 (Return Demo.mapping_str)
                 [Source "q1.sql" Demo.sql_join] (λ _, [0; 0; 0]) in
  object_of_arrays Demo.mapping_str = false ∧
  status r = Return () ∧
  pool r = ["pg.b"; "pg.a"] ∧
  events r !! 0 = Some (Read "q1.sql") ∧
  events r !! 1 =
    Some (Write "q1.sql"
            "SELECT * FROM pg.b.orders AS o JOIN pg.b.customers AS c ON o.cid = c.id").
Proof. vm_compute. by split_and!. Qed.

(** * The examples of the specification, run on the model *)

(** Example 1: both tables of the join are qualified from the pool, the
    aliases stay. *)
Example example_join :
  @rewrite_sql Demo.tape Demo.sqlglot Demo.unicode [0; 1; 0] Demo.sql_join
               Demo.pool2
  = Call (Return "SELECT * FROM postgres1.db1.orders AS o JOIN postgres1.db2.customers AS c ON o.cid = c.id")
         ["postgres1.db2"; "postgres1.db1"] [].
Proof. reflexivity. Qed.

(** Example 2: the table inside the CTE body is qualified, the reference to
    the CTE is not. *)
Example example_cte :
  @rewrite_sql Demo.tape Demo.sqlglot Demo.unicode [1; 1] Demo.sql_cte
               Demo.pool2
  = Call (Return "WITH recent AS (SELECT * FROM postgres1.db2.orders) SELECT * FROM Recent")
         Demo.pool2 [].
Proof. reflexivity. Qed.

(** Example 3: a text that does not parse comes back as it is, with a
    warning. *)
Example example_truncated :
  @rewrite_sql Demo.tape Demo.sqlglot Demo.unicode [1; 1] Demo.sql_truncated
               Demo.pool2
  = Call (Return "SELECT * FROM (orders") Demo.pool2 [warning "Expecting )"].
Proof. reflexivity. Qed.

(** An empty statement in the parse result stops the call. *)
Example example_empty_statement :
  for_each (@rewrite_stmt Demo.tape Demo.unicode Demo.pool2)
           [Some Demo.q_const; None] ([], [0])
  = Raise AttributeError.
Proof. reflexivity. Qed.

(** The clean-up of a file's text. *)
Example example_clean :
  strip_comments_and_semicolon
    ("-- query 1" ++ nl ++ "SELECT 1;" ++ nl) = "SELECT 1".
Proof. reflexivity. Qed.

(** A line boundary outside ASCII ends a comment line as well: the text
    after LINE SEPARATOR is a line of its own. *)
Example example_clean_line_separator :
  strip_comments_and_semicolon
    ("SELECT 1" ++ [0x2028%N] ++ "-- x;") = "SELECT 1" ∧
  single_line ("SELECT" ++ [0xA0%N] ++ "1" ++ [0x2028%N] ++ "FROM t")
    = "SELECT 1 FROM t".
Proof. split; reflexivity. Qed.

(** A string value of the mapping is iterated by code points. *)
Example example_string_value :
  @load_mapping Demo.builtins (Return (PDict [(PStr "pg", PStr "é")]))
    = Return [("pg", ["é"])] ∧
  length ("é" : str) = 1.
Proof. split; reflexivity. Qed.

(** What the literals of this file denote. *)
Example example_literals :
  ("Aé⚠" : str) = [0x41; 0xE9; 0x26A0]%N ∧ nl = [0x0A%N].
Proof. split; reflexivity. Qed.


(** * Further properties of the code *)

(** ** Statements that need no draw, and pools that cannot give one *)

Section EligibleFacts.
Context `{Unicode}.

Lemma has_eligible_false stmt :
  has_eligible stmt = false ↔
  ∀ p d, data_at p stmt = Some d → eligible stmt p d = false.
Proof.
  unfold has_eligible. split.
  - intros Hnone p d Hd. destruct (eligible stmt p d) eqn:Hel; [|done].
    assert (Hex : existsb (λ p, match data_at p stmt with
                                | Some d => eligible stmt p d
                                | None => false
                                end) (find_all Table stmt) = true);
      [|congruence].
    apply existsb_exists. exists p. split; [|by rewrite Hd].
    apply list_elem_of_In, elem_of_find_all. exists d. split; [done|].
    unfold eligible in Hel. by repeat (apply andb_true_iff in Hel as [Hel _]).
  - intros Hall.
    destruct (existsb _ (find_all Table stmt)) eqn:Hex; [|done].
    apply existsb_exists in Hex as (p & _ & Hp).
    destruct (data_at p stmt) as [d|] eqn:Hd; [|done].
    by rewrite (Hall p d Hd) in Hp.
Qed.

End EligibleFacts.

Section LoopFacts.
Context `{Random} `{Unicode}.

Lemma rewrite_table_skips combos stmt g p d :
  data_at p stmt = Some d → class_eqb (cls d) Table = true →
  eligible stmt p d = false →
  rewrite_table combos (cte_names stmt) (stmt, g) p = Return (stmt, g).
Proof.
  intros Hd Hc Hel. unfold rewrite_table. rewrite Hd.
  unfold eligible, qualified, cte_exempt in Hel. rewrite Hc in Hel.
  simpl in Hel.
  destruct (truthy (db d) || truthy (catalog d)); [done|].
  destruct (parent_is_cte p stmt); [done|].
  by destruct (mem (lower (name d)) (cte_names stmt)).
Qed.

Lemma rewrite_table_draws combos stmt g p d :
  data_at p stmt = Some d → eligible stmt p d = true →
  rewrite_table combos (cte_names stmt) (stmt, g) p =
    '(catalog, schema, g') ← random_prefix combos g;
    Return (update p (set_db schema ∘ set_catalog catalog) stmt, g').
Proof.
  intros Hd Hel. unfold rewrite_table. rewrite Hd.
  unfold eligible, qualified, cte_exempt in Hel.
  apply andb_true_iff in Hel as [Hel Hex].
  apply andb_true_iff in Hel as [_ Hq].
  apply negb_true_iff in Hq. apply negb_true_iff in Hex.
  apply orb_false_iff in Hex as [Hpar Hmem]. by rewrite Hq, Hpar, Hmem.
Qed.

(** Without an eligible node the loop over the tables is the identity and
    leaves the generator alone, whatever the pool. *)
Lemma rewrite_tables_untouched combos stmt g ps :
  (∀ p, p ∈ ps → p ∈ find_all Table stmt) →
  (∀ p d, p ∈ ps → data_at p stmt = Some d → eligible stmt p d = false) →
  for_each (rewrite_table combos (cte_names stmt)) ps (stmt, g)
    = Return (stmt, g).
Proof.
  induction ps as [|p ps IH]; intros Hsub Hnone; cbn [for_each]; [done|].
  assert (Hp : p ∈ find_all Table stmt) by (apply Hsub; left).
  apply elem_of_find_all in Hp as (d & Hd & Hc).
  rewrite (rewrite_table_skips combos stmt g p d Hd Hc); [|apply Hnone; [left|done]].
  simpl. apply IH.
  - intros q Hq. apply Hsub. by right.
  - intros q d' Hq. apply Hnone. by right.
Qed.

(** With a pool that cannot give a draw, the loop raises at the first
    eligible table. *)
Lemma rewrite_tables_raise combos stmt g x ps :
  (∀ g, random_prefix combos g = Raise x) →
  (∀ p, p ∈ ps → p ∈ find_all Table stmt) →
  (∃ p d, p ∈ ps ∧ data_at p stmt = Some d ∧ eligible stmt p d = true) →
  for_each (rewrite_table combos (cte_names stmt)) ps (stmt, g) = Raise x.
Proof.
  intros Hraise. induction ps as [|p ps IH]; intros Hsub (q & d & Hq & Hd & Hel).
  - by apply elem_of_nil in Hq.
  - cbn [for_each].
    assert (Hp : p ∈ find_all Table stmt) by (apply Hsub; left).
    apply elem_of_find_all in Hp as (dp & Hdp & Hc).
    destruct (eligible stmt p dp) eqn:Help.
    + rewrite (rewrite_table_draws combos stmt g p dp Hdp Help), Hraise. done.
    + rewrite (rewrite_table_skips combos stmt g p dp Hdp Hc Help). simpl.
      apply IH; [intros r Hr; apply Hsub; by right|].
      apply elem_of_cons in Hq as [->|Hq]; [congruence|]. eauto.
Qed.

Lemma rewrite_stmt_untouched combos stmt done g :
  has_eligible stmt = false →
  rewrite_stmt combos (done, g) (Some stmt) = Return (done ++ [stmt], g).
Proof.
  intros Hnone. unfold rewrite_stmt. rewrite rewrite_tables_untouched; [done..|].
  intros p d _. by apply has_eligible_false.
Qed.

Lemma rewrite_stmt_raise combos stmt done g x :
  (∀ g, random_prefix combos g = Raise x) →
  has_eligible stmt = true →
  rewrite_stmt combos (done, g) (Some stmt) = Raise x.
Proof.
  intros Hraise Hsome. unfold rewrite_stmt.
  rewrite (rewrite_tables_raise combos stmt g x);
    [done..|].
  apply existsb_exists in Hsome as (p & Hp & Hel).
  destruct (data_at p stmt) as [d|] eqn:Hd; [|done].
  exists p, d. split; [by apply list_elem_of_In|done].
Qed.

(** A second look at statements that need no draw changes nothing. *)
Lemma rewrite_statements_untouched combos es done g :
  Forall (λ e, has_eligible e = false) es →
  for_each (rewrite_stmt combos) (Some <$> es) (done, g)
    = Return (done ++ es, g).
Proof.
  intros Hall. revert done. induction Hall as [|e es He _ IH]; intros done.
  - simpl. by rewrite app_nil_r.
  - rewrite fmap_cons. cbn [for_each]. rewrite rewrite_stmt_untouched by done.
    simpl. rewrite IH. by rewrite <- app_assoc.
Qed.

Lemma rewrite_statements_unusable combos es done g x :
  (∀ g, random_prefix combos g = Raise x) →
  for_each (rewrite_stmt combos) (Some <$> es) (done, g)
    = if existsb has_eligible es then Raise x else Return (done ++ es, g).
Proof.
  intros Hraise. revert done. induction es as [|e es IH]; intros done.
  - simpl. by rewrite app_nil_r.
  - rewrite fmap_cons. cbn [for_each existsb].
    destruct (has_eligible e) eqn:He.
    + by rewrite (rewrite_stmt_raise combos e done g x).
    + rewrite rewrite_stmt_untouched by done. simpl. rewrite IH.
      by rewrite <- app_assoc.
Qed.

Lemma random_prefix_empty g : random_prefix [] g = Raise IndexError.
Proof. done. Qed.

Lemma random_prefix_dotless combos g :
  combos ≠ [] → Forall (λ c, has_dot c = false) combos →
  random_prefix combos g = Raise ValueError.
Proof.
  intros Hne Hall.
  destruct (choice_nonempty combos g Hne) as (entry & Hentry & _).
  eapply random_prefix_no_dot; [done|].
  rewrite list.Forall_forall in Hall. apply Hall.
  by eapply list_elem_of_lookup_2.
Qed.

End LoopFacts.

(** ** What the rewrite keeps *)

Section KeepFacts.
Context `{Unicode}.

Lemma eligible_is_table stmt p d : eligible stmt p d = true → cls d = Table.
Proof.
  unfold eligible. intros Hel.
  repeat (apply andb_true_iff in Hel as [Hel _]). by apply class_eqb_eq.
Qed.

Lemma rewritten_identity combos stmt stmt' p :
  rewritten combos stmt stmt' →
  identity_of <$> data_at p stmt' = identity_of <$> data_at p stmt.
Proof.
  intros Hrw. specialize (Hrw p). destruct (data_at p stmt) as [d0|]; [|by rewrite Hrw].
  destruct (eligible stmt p d0); [|by rewrite Hrw].
  by destruct Hrw as (d & (entry & c & s & _ & _ & _ & ->) & ->).
Qed.

Lemma rewritten_non_table combos stmt stmt' p d :
  rewritten combos stmt stmt' → cls d ≠ Table →
  data_at p stmt = Some d ↔ data_at p stmt' = Some d.
Proof.
  intros Hrw Hcls. specialize (Hrw p). split.
  - intros Hd. rewrite Hd in Hrw. destruct (eligible stmt p d) eqn:Hel; [|done].
    by apply eligible_is_table in Hel.
  - intros Hd'. destruct (data_at p stmt) as [d0|]; [|congruence].
    destruct (eligible stmt p d0) eqn:Hel; [|congruence].
    destruct Hrw as (d1 & (entry & c & s & _ & _ & _ & ->) & Hd1).
    rewrite Hd' in Hd1. injection Hd1 as ->. simpl in Hcls.
    by apply eligible_is_table in Hel.
Qed.

Lemma rewritten_parent combos stmt stmt' p :
  rewritten combos stmt stmt' → parent_is_cte p stmt' = parent_is_cte p stmt.
Proof.
  intros Hrw. unfold parent_is_cte. destruct p as [|i p]; [done|].
  pose proof (rewritten_identity combos stmt stmt' (removelast (i :: p)) Hrw) as Hid.
  destruct (data_at (removelast (i :: p)) stmt'),
           (data_at (removelast (i :: p)) stmt); simpl in Hid; try done.
  injection Hid as -> _ _. done.
Qed.

Lemma cte_names_sound stmt x :
  x ∈ cte_names stmt →
  ∃ q c, data_at q stmt = Some c ∧ cls c = CTE ∧ alias_or_name c ≠ "" ∧
         x = lower (alias_or_name c).
Proof.
  unfold cte_names. intros Hx. apply list_elem_of_omap in Hx as (q & Hq & Hsome).
  apply elem_of_find_all in Hq as (c & Hc & Hcls). rewrite Hc in Hsome.
  simpl in Hsome. destruct (nonempty (alias_or_name c)) eqn:Hne; [|done].
  injection Hsome as <-. exists q, c. split_and!; [done| |by apply nonempty_ne|done].
  by apply class_eqb_eq.
Qed.

Lemma rewritten_cte_names combos stmt stmt' x :
  rewritten combos stmt stmt' →
  mem x (cte_names stmt') = mem x (cte_names stmt).
Proof.
  intros Hrw. apply eq_true_iff_eq. rewrite !mem_elem_of.
  split; intros Hx; apply cte_names_sound in Hx as (q & c & Hc & Hcls & Hne & ->);
    apply (cte_names_complete _ q c); try done;
    eapply (rewritten_non_table combos stmt stmt' q c Hrw); try done;
    by rewrite Hcls.
Qed.

(** After the rewrite no table is left to qualify, unless the pool has the
    entry "." whose two sides are both empty. *)
Lemma rewritten_settles combos stmt stmt' :
  rewritten combos stmt stmt' → "." ∉ combos → has_eligible stmt' = false.
Proof.
  intros Hrw Hdot. apply has_eligible_false. intros p d' Hd'.
  pose proof (Hrw p) as Hp. destruct (data_at p stmt) as [d0|]; [|congruence].
  destruct (eligible stmt p d0) eqn:Hel.
  - destruct Hp as (d & (entry & c & s & Hin & -> & _ & ->) & Hd).
    rewrite Hd' in Hd. injection Hd as ->.
    unfold eligible, qualified. simpl.
    destruct s, c; simpl; rewrite ?andb_false_r; done.
  - rewrite Hd' in Hp. injection Hp as ->.
    unfold eligible, cte_exempt in *.
    by rewrite (rewritten_parent combos stmt stmt'),
               (rewritten_cte_names combos stmt stmt').
Qed.

End KeepFacts.

(** ** A pool of one entry *)

Lemma for_each_fst {S G X} (body : S * G → X → outcome (S * G)) xs s g1 g2 :
  (∀ s g1 g2 x, fst <$> body (s, g1) x = fst <$> body (s, g2) x) →
  fst <$> for_each body xs (s, g1) = fst <$> for_each body xs (s, g2).
Proof.
  intros Hbody. revert s g1 g2. induction xs as [|x xs IH]; intros s g1 g2;
    cbn [for_each]; [done|].
  pose proof (Hbody s g1 g2 x) as Hx.
  destruct (body (s, g1) x) as [[s1 g1']|e1], (body (s, g2) x) as [[s2 g2']|e2];
    simpl in Hx; try done.
  injection Hx as ->. apply IH.
Qed.

Section SingletonFacts.
Context `{Random} `{Unicode}.

Lemma choice_singleton {A} (x : A) g :
  choice [x] g = Return (x, (randbelow 1 g).2).
Proof.
  destruct (choice_nonempty [x] g) as (y & Hy & ->); [done|].
  pose proof (randbelow_lt 1 g) as Hlt. simpl in *.
  destruct (randbelow 1 g).1 as [|i]; [|lia]. by injection Hy as ->.
Qed.

Lemma rewrite_table_singleton entry names stmt g1 g2 p :
  fst <$> rewrite_table [entry] names (stmt, g1) p
  = fst <$> rewrite_table [entry] names (stmt, g2) p.
Proof.
  unfold rewrite_table. destruct (data_at p stmt) as [d|]; [|done].
  destruct (truthy (db d) || truthy (catalog d)); [done|].
  destruct (parent_is_cte p stmt); [done|].
  destruct (mem (lower (name d)) names); [done|].
  unfold random_prefix. rewrite !choice_singleton. simpl.
  by destruct (unpack2 (split1 "." entry)) as [[c s]|].
Qed.

Lemma rewrite_stmt_singleton entry done g1 g2 stmt :
  fst <$> rewrite_stmt [entry] (done, g1) stmt
  = fst <$> rewrite_stmt [entry] (done, g2) stmt.
Proof.
  unfold rewrite_stmt. destruct stmt as [e|]; [|done].
  assert (Hloop : fst <$> for_each (rewrite_table [entry] (cte_names e))
                            (find_all Table e) (e, g1)
                  = fst <$> for_each (rewrite_table [entry] (cte_names e))
                              (find_all Table e) (e, g2)).
  { apply for_each_fst. intros. apply rewrite_table_singleton. }
  destruct (for_each _ _ (e, g1)) as [[e1 g1']|x1],
           (for_each _ _ (e, g2)) as [[e2 g2']|x2]; simpl in *; try done;
    by injection Hloop as ->.
Qed.

End SingletonFacts.

Lemma for_each_app {S X} (body : S → X → outcome S) xs ys s :
  for_each body (xs ++ ys) s = s' ← for_each body xs s; for_each body ys s'.
Proof.
  revert s. induction xs as [|x xs IH]; intros s; simpl; [done|].
  destruct (body s x) as [s'|e]; simpl; [apply IH|done].
Qed.

(** ** The rewriter, further *)

Section RewriterMore.
Context `{Random} `{SqlGlot} `{Unicode}.

(** X1. The rewrite touches nothing but the two qualifiers of table nodes:
    every node of every statement keeps its class, name and alias, no node
    appears or disappears, and a node that is not a table (a column, a
    function, an alias, a CTE) is the same before and after. *)
Theorem rewrite_keeps_names_and_other_nodes g sql combos es :
  parse sql = Statements (Some <$> es) →
  combos ≠ [] → Forall (λ c, has_dot c = true) combos →
  ∃ es' g',
    rewrite_statements (shuffle combos g).1 (Some <$> es) (shuffle combos g).2
      = Return (es', g') ∧
    result (rewrite_sql g sql combos)
      = Return (join (";" ++ nl) (to_sql <$> es')) ∧
    length es' = length es ∧
    ∀ i stmt stmt' p,
      es !! i = Some stmt → es' !! i = Some stmt' →
      identity_of <$> data_at p stmt' = identity_of <$> data_at p stmt ∧
      ∀ d, cls d ≠ Table → data_at p stmt = Some d ↔ data_at p stmt' = Some d.
Proof.
  intros Hparse Hne Hdots.
  destruct (rewrite_sql_ok g sql combos es Hparse Hne Hdots)
    as (es' & g' & Hloop & -> & Hall).
  exists es', g'. split_and!; [done..|symmetry; by eapply Forall2_length|].
  intros i stmt stmt' p Hi Hi'.
  destruct (Forall2_lookup_lr _ _ _ _ _ _ Hall Hi Hi') as [Hrw _].
  split; [by eapply rewritten_identity|]. intros d Hd.
  by eapply rewritten_non_table.
Qed.

(** X2. The rewrite is idempotent on the trees: when no pool entry is the
    bare ".", the statements it leaves have no table left to qualify, and
    running the loops over them again, with any pool and any generator,
    returns them as they are and draws nothing. *)
Theorem second_pass_changes_nothing g sql combos es :
  parse sql = Statements (Some <$> es) →
  combos ≠ [] → Forall (λ c, has_dot c = true) combos → "." ∉ combos →
  ∃ es' g',
    rewrite_statements (shuffle combos g).1 (Some <$> es) (shuffle combos g).2
      = Return (es', g') ∧
    Forall (λ e, has_eligible e = false) es' ∧
    ∀ combos2 g2,
      rewrite_statements combos2 (Some <$> es') g2 = Return (es', g2).
Proof.
  intros Hparse Hne Hdots Hnodot.
  destruct (rewrite_sql_ok g sql combos es Hparse Hne Hdots)
    as (es' & g' & Hloop & _ & Hall).
  assert (Hsettled : Forall (λ e, has_eligible e = false) es').
  { clear Hloop Hparse. induction Hall as [|e e' es es' [Hrw _] _ IH];
      [constructor|]. constructor; [by eapply rewritten_settles|done]. }
  exists es', g'. split_and!; [done..|].
  intros combos2 g2. unfold rewrite_statements.
  by rewrite rewrite_statements_untouched.
Qed.

(** X3. A pool none of whose entries has a dot (the empty pool included)
    fails a call only when a draw is needed: if some statement has a table
    to qualify, the call raises IndexError for the empty pool and
    ValueError otherwise; if none has, it returns the plain serialisation
    of the parsed statements. *)
Theorem dotless_pool_raises_only_when_drawing g sql combos es :
  parse sql = Statements (Some <$> es) →
  Forall (λ c, has_dot c = false) combos →
  result (rewrite_sql g sql combos) =
    if existsb has_eligible es
    then Raise (match combos with [] => IndexError | _ :: _ => ValueError end)
    else Return (join (";" ++ nl) (to_sql <$> es)).
Proof.
  intros Hparse Hdots. unfold rewrite_sql. rewrite Hparse.
  pose proof (shuffle_perm combos g) as Hperm.
  destruct (shuffle combos g) as [combos' g1]. simpl in Hperm. simpl.
  unfold rewrite_statements.
  rewrite (rewrite_statements_unusable combos' es [] g1
             (match combos with [] => IndexError | _ :: _ => ValueError end)).
  - by destruct (existsb has_eligible es).
  - intros g2. destruct combos as [|c combos].
    + apply Permutation_nil_r in Hperm as ->. done.
    + apply random_prefix_dotless; [|by rewrite Hperm].
      intros ->. by apply Permutation_nil_l in Hperm.
Qed.

(** X4. With a pool of one entry the generator does not matter: two calls
    on the same text return the same result, print the same and leave the
    pool as it was. *)
Theorem single_entry_pool_ignores_generator g1 g2 sql entry :
  rewrite_sql g1 sql [entry] = rewrite_sql g2 sql [entry] ∧
  combos_after (rewrite_sql g1 sql [entry]) = [entry].
Proof.
  unfold rewrite_sql. destruct (parse sql) as [stmts| |]; [|done..]. simpl.
  split; [|done]. f_equal. unfold rewrite_statements.
  assert (Hloop : fst <$> for_each (rewrite_stmt [entry]) stmts ([], g1)
                  = fst <$> for_each (rewrite_stmt [entry]) stmts ([], g2)).
  { apply for_each_fst. intros. apply rewrite_stmt_singleton. }
  destruct (for_each _ _ ([], g1)) as [[e1 g1']|x1],
           (for_each _ _ ([], g2)) as [[e2 g2']|x2]; simpl in *; try done;
    by injection Hloop as ->.
Qed.

(** X5. An empty statement in the parse result (None, as sqlglot returns
    for the text between two semicolons) ends a call that has a usable
    pool with AttributeError, whatever stands before or after it. *)
Theorem empty_statement_raises_attribute_error g sql combos pre post :
  parse sql = Statements ((Some <$> pre) ++ None :: post) →
  combos ≠ [] → Forall (λ c, has_dot c = true) combos →
  result (rewrite_sql g sql combos) = Raise AttributeError.
Proof.
  intros Hparse Hne Hdots. unfold rewrite_sql. rewrite Hparse.
  pose proof (shuffle_perm combos g) as Hperm.
  destruct (shuffle combos g) as [combos' g1]. simpl in Hperm. simpl.
  unfold rewrite_statements. rewrite for_each_app.
  destruct (rewrite_statements_from combos' pre g1 []) as (es' & g' & -> & _).
  { intros ->. by apply Permutation_nil_l in Hperm. }
  { by rewrite Hperm. }
  done.
Qed.

End RewriterMore.

Section ExemptionMore.
Context `{Unicode}.

(** X6. The names that exempt tables of a statement are exactly the
    lower-cased names of its CTE nodes, taken from the alias when there is
    one and from the name otherwise, wherever in the tree the CTE sits; a
    CTE without any name contributes nothing. *)
Theorem cte_names_are_the_lowered_cte_aliases stmt x :
  mem x (cte_names stmt) = true ↔
  ∃ q c, data_at q stmt = Some c ∧ cls c = CTE ∧
         (if nonempty (alias c) then x = lower (alias c)
          else name c ≠ "" ∧ x = lower (name c)).
Proof.
  rewrite mem_elem_of. split.
  - intros Hx. apply cte_names_sound in Hx as (q & c & Hc & Hcls & Hne & ->).
    exists q, c. split_and!; [done..|]. unfold alias_or_name in *.
    by destruct (nonempty (alias c)).
  - intros (q & c & Hc & Hcls & Hname).
    assert (alias_or_name c ≠ "" ∧ x = lower (alias_or_name c)) as [Hne ->].
    { unfold alias_or_name. destruct (nonempty (alias c)) eqn:Ha; [|done].
      split; [by apply nonempty_ne|done]. }
    by eapply cte_names_complete.
Qed.

End ExemptionMore.

(** ** The mapping loader, further *)

Lemma dict_get_set_eq {V} k (v : V) d : dict_get k (dict_set k v d) = Some v.
Proof.
  induction d as [|[k' v'] d IH]; simpl; [by rewrite str_eqb_refl|].
  destruct (str_eqb k k') eqn:Hk; simpl; by rewrite Hk.
Qed.

Lemma dict_get_set_ne {V} k k' (v : V) d :
  k ≠ k' → dict_get k' (dict_set k v d) = dict_get k' d.
Proof.
  intros Hne. induction d as [|[k0 v0] d IH]; simpl.
  - destruct (str_eqb k' k) eqn:Hk; [|done].
    apply str_eqb_eq in Hk. congruence.
  - destruct (str_eqb k k0) eqn:Hk; simpl; [|by rewrite IH].
    apply str_eqb_eq in Hk as ->.
    destruct (str_eqb k' k0) eqn:Hk'; [|done].
    apply str_eqb_eq in Hk'. congruence.
Qed.

Lemma dict_set_keys {V} k (v : V) d k' :
  k' ∈ (dict_set k v d).*1 ↔ k' = k ∨ k' ∈ d.*1.
Proof.
  induction d as [|[k0 v0] d IH]; simpl.
  - rewrite list_elem_of_singleton, elem_of_nil. tauto.
  - destruct (str_eqb k k0) eqn:Hk; simpl.
    + apply str_eqb_eq in Hk as ->. rewrite !elem_of_cons. tauto.
    + rewrite !elem_of_cons, IH. tauto.
Qed.

Lemma dict_set_fresh {V} k (v : V) d :
  k ∉ d.*1 → dict_set k v d = d ++ [(k, v)].
Proof.
  induction d as [|[k0 v0] d IH]; simpl; [done|]. intros Hk.
  apply not_elem_of_cons in Hk as [Hne Hk].
  destruct (str_eqb k k0) eqn:Heq; [by apply str_eqb_eq in Heq|].
  by rewrite IH.
Qed.

Lemma dict_set_NoDup {V} k (v : V) d : NoDup d.*1 → NoDup (dict_set k v d).*1.
Proof.
  induction d as [|[k0 v0] d IH]; simpl; intros Hnd.
  - apply list.NoDup_singleton.
  - apply list.NoDup_cons in Hnd as [Hk0 Hnd].
    destruct (str_eqb k k0) eqn:Hk; simpl.
    + by apply list.NoDup_cons.
    + apply list.NoDup_cons. split; [|by apply IH].
      rewrite dict_set_keys. intros [->|Hin]; [|done].
      by rewrite str_eqb_refl in Hk.
Qed.

Lemma py_iter_raises v e : py_iter v = Raise e → e = TypeError.
Proof. destruct v; simpl; congruence. Qed.

Section MappingMore.
Context `{Builtins}.

Lemma load_step_eq acc cat schemas :
  load_step acc (cat, schemas)
  = schs ← py_iter schemas;
    Return (dict_set (py_str cat) (py_str <$> schs) acc).
Proof. done. Qed.

Lemma str_of_strs (schemas : list str) :
  py_str <$> (PStr <$> schemas) = schemas.
Proof.
  induction schemas as [|s schemas IH]; [done|].
  rewrite !fmap_cons, py_str_str. by f_equal.
Qed.

Lemma load_step_document acc cat schemas :
  load_step acc (PStr cat, PList (PStr <$> schemas))
  = Return (dict_set cat schemas acc).
Proof.
  rewrite load_step_eq. simpl. rewrite py_str_str. do 2 f_equal.
  apply str_of_strs.
Qed.

Lemma load_mapping_dict items :
  load_mapping (Return (PDict items)) = for_each load_step items [].
Proof.
  unfold load_mapping. simpl. f_equal.
Qed.

(** The keys stay distinct through the comprehension. *)
Lemma load_steps_NoDup items acc m :
  NoDup acc.*1 → for_each load_step items acc = Return m → NoDup m.*1.
Proof.
  revert acc. induction items as [|[cat schemas] items IH]; intros acc Hnd;
    cbn [for_each].
  - by intros [= <-].
  - rewrite load_step_eq. destruct (py_iter schemas) as [schs|e]; [|done].
    simpl. apply IH. by apply dict_set_NoDup.
Qed.

Lemma load_steps_keys items acc m k :
  for_each load_step items acc = Return m →
  k ∈ m.*1 ↔ k ∈ acc.*1 ∨ ∃ item, item ∈ items ∧ py_str item.1 = k.
Proof.
  revert acc. induction items as [|[cat schemas] items IH]; intros acc;
    cbn [for_each].
  - intros [= <-]. split; [by left|]. intros [?|(item & Hin & _)]; [done|].
    by apply elem_of_nil in Hin.
  - rewrite load_step_eq. destruct (py_iter schemas) as [schs|e]; [|done].
    simpl. intros Hrun. rewrite (IH _ Hrun), dict_set_keys. split.
    + intros [[->|?]|(item & Hin & Hk)]; [right|by left|right].
      * exists (cat, schemas). split; [left|done].
      * exists item. split; [by right|done].
    + intros [?|(item & Hin & Hk)]; [left; by right|].
      apply elem_of_cons in Hin as [->|Hin]; [left; left; by simpl in Hk|].
      right. by exists item.
Qed.

(** Later items with other keys leave an entry alone. *)
Lemma load_steps_other_keys items acc m k :
  for_each load_step items acc = Return m →
  (∀ item, item ∈ items → py_str item.1 ≠ k) →
  dict_get k m = dict_get k acc.
Proof.
  revert acc. induction items as [|[cat schemas] items IH]; intros acc;
    cbn [for_each].
  - by intros [= <-].
  - rewrite load_step_eq. destruct (py_iter schemas) as [schs|e]; [|done].
    simpl. intros Hrun Hother. rewrite (IH _ Hrun).
    + apply dict_get_set_ne. apply (Hother (cat, schemas)). left.
    + intros item Hin. apply Hother. by right.
Qed.

(** X7. A document of the documented shape, with distinct catalog names,
    loads into the very mapping it was written from: same catalogs, same
    schema lists, same order. *)
Theorem load_mapping_reads_back_the_document (m : list (str * list str)) :
  NoDup m.*1 → load_mapping (Return (document_of m)) = Return m.
Proof.
  intros Hnd. unfold document_of. rewrite load_mapping_dict.
  assert (Hgen : ∀ acc, NoDup (acc ++ m).*1 →
            for_each load_step
              ((λ '(cat, schemas), (PStr cat, PList (PStr <$> schemas))) <$> m)
              acc = Return (acc ++ m)).
  { clear Hnd. induction m as [|[cat schemas] m IH]; intros acc Hnd.
    - simpl. by rewrite app_nil_r.
    - rewrite fmap_cons. cbn [for_each]. rewrite load_step_document.
      cbn [mbind outcome_bind]. rewrite dict_set_fresh.
      + replace (acc ++ (cat, schemas) :: m) with ((acc ++ [(cat, schemas)]) ++ m)
          by (by rewrite <- app_assoc).
        apply IH. by rewrite <- app_assoc.
      + rewrite fmap_app in Hnd. apply list.NoDup_app in Hnd as (_ & Hdisj & _).
        intros Hin. apply (Hdisj cat Hin). simpl. left. }
  apply (Hgen []). done.
Qed.

(** X8. Whatever the values are, a document that loads gives a mapping
    with distinct catalog names, one for every key of the document after
    [str], and when two keys collide after [str] the schemas of the later
    one are kept. *)
Theorem load_mapping_keeps_the_last_of_equal_keys items m :
  load_mapping (Return (PDict items)) = Return m →
  NoDup m.*1 ∧
  (∀ k, k ∈ m.*1 ↔ ∃ item, item ∈ items ∧ py_str item.1 = k) ∧
  ∀ pre cat schemas post,
    items = pre ++ (cat, schemas) :: post →
    (∀ item, item ∈ post → py_str item.1 ≠ py_str cat) →
    ∃ schs, py_iter schemas = Return schs ∧
            dict_get (py_str cat) m = Some (py_str <$> schs).
Proof.
  rewrite load_mapping_dict. intros Hrun. split_and!.
  - eapply load_steps_NoDup; [|done]. constructor.
  - intros k. rewrite (load_steps_keys _ _ _ k Hrun). simpl.
    rewrite elem_of_nil. tauto.
  - intros pre cat schemas post -> Hpost.
    rewrite for_each_app in Hrun.
    destruct (for_each load_step pre []) as [acc|e]; [|done].
    cbn [mbind outcome_bind for_each] in Hrun. rewrite load_step_eq in Hrun.
    destruct (py_iter schemas) as [schs|e]; [|done].
    cbn [mbind outcome_bind] in Hrun.
    exists schs. split; [done|].
    rewrite (load_steps_other_keys _ _ _ _ Hrun Hpost).
    apply dict_get_set_eq.
Qed.

Context `{Random} `{SqlGlot} `{Unicode}.

(** X9. A value of the document that cannot be iterated (a number, a
    boolean, null) ends the run with TypeError before any file is read or
    written. *)
Theorem non_iterable_value_aborts_with_type_error
    output_dir items cat schemas sql_files entropy :
  (cat, schemas) ∈ items → py_iter schemas = Raise TypeError →
  main output_dir (Return (PDict items)) sql_files entropy
    = Run [] [] (Raise TypeError).
Proof.
  intros Hin Hbad. unfold main. rewrite load_mapping_dict.
  assert (Hload : ∀ acc, for_each load_step items acc = Raise TypeError).
  { induction items as [|[cat0 schemas0] items IH]; intros acc;
      [by apply elem_of_nil in Hin|].
    cbn [for_each]. rewrite load_step_eq.
    destruct (py_iter schemas0) as [schs|e] eqn:Hit; simpl.
    - apply IH. apply elem_of_cons in Hin as [[= <- <-]|Hin]; [congruence|done].
    - by rewrite (py_iter_raises _ _ Hit). }
  by rewrite Hload.
Qed.

End MappingMore.

(** X10. The pool pairs every catalog with its own schemas and with no
    others: its entries are exactly the texts catalog.schema for a schema
    in the list of that catalog, and there are as many as the schema lists
    have elements. *)
Theorem combo_pool_pairs_catalogs_with_own_schemas
    (mapping : list (str * list str)) :
  (∀ entry, entry ∈ build_combos mapping ↔
            ∃ cat schemas schema,
              (cat, schemas) ∈ mapping ∧ schema ∈ schemas ∧
              entry = cat ++ "." ++ schema) ∧
  length (build_combos mapping) = sum_list (length ∘ snd <$> mapping).
Proof.
  split; [intros entry; apply elem_of_build_combos|].
  unfold build_combos. induction mapping as [|[cat schemas] mapping IH]; [done|].
  change (length ((schema ← schemas; [cat ++ "." ++ schema]) ++
                  (mapping ≫= λ '(cat, schemas),
                                schema ← schemas; [cat ++ "." ++ schema]))
          = length schemas + sum_list (length ∘ snd <$> mapping)).
  rewrite length_app, IH. f_equal.
  clear. induction schemas as [|s schemas IH]; [done|]. simpl. by rewrite <- IH.
Qed.

(** ** The file loop, further *)

Lemma reads_app evs1 evs2 : reads (evs1 ++ evs2) = reads evs1 ++ reads evs2.
Proof. apply omap_app. Qed.

Lemma writes_app evs1 evs2 : writes (evs1 ++ evs2) = writes evs1 ++ writes evs2.
Proof. apply omap_app. Qed.

Lemma reads_prints lines : reads (Print <$> lines) = [].
Proof. by induction lines. Qed.

Lemma writes_prints lines : writes (Print <$> lines) = [].
Proof. by induction lines. Qed.

Lemma all_present stmts :
  forallb (λ s : option expr, match s with Some _ => true | None => false end)
          stmts = true →
  ∃ es, stmts = Some <$> es.
Proof.
  induction stmts as [|[e|] stmts IH]; simpl; [by exists []| |done].
  intros Hall. destruct (IH Hall) as (es & ->). by exists (e :: es).
Qed.

Section MainMore.
Context `{Random} `{SqlGlot} `{Unicode}.

Lemma combos_after_perm g sql combos :
  combos_after (rewrite_sql g sql combos) ≡ₚ combos.
Proof.
  unfold rewrite_sql. destruct (parse sql); [|done..].
  pose proof (shuffle_perm combos g) as Hperm.
  by destruct (shuffle combos g).
Qed.

(** A call on a text that the parser accepts or rejects with a ParseError
    returns, when the pool is usable. *)
Lemma rewrite_sql_returns g sql combos :
  parses sql = true →
  combos ≠ [] → Forall (λ c, has_dot c = true) combos →
  ∃ out, result (rewrite_sql g sql combos) = Return out.
Proof.
  unfold parses. intros Hparses Hne Hdots.
  destruct (parse sql) as [stmts|e|x] eqn:Hparse; [| |done].
  - destruct (all_present stmts Hparses) as (es & ->).
    destruct (rewrite_sql_ok g sql combos es Hparse Hne Hdots)
      as (es' & g' & _ & -> & _). by eexists.
  - unfold rewrite_sql. rewrite Hparse. by eexists.
Qed.

(** What a run that ended normally has read and written. *)
Lemma process_files_events output_dir entropy k combos sql_files :
  let r := process_files output_dir entropy k combos sql_files in
  status r = Return () →
  reads (events r) = src_name <$> sql_files ∧
  writes (events r) = sql_files ≫= targets output_dir.
Proof.
  revert k combos. induction sql_files as [|src rest IH]; intros k combos;
    [done|]. simpl.
  destruct (result (rewrite_sql (entropy k)
              (strip_comments_and_semicolon (src_text src)) combos));
    [|done].
  simpl. intros Hok. destruct (IH _ _ Hok) as [Hreads Hwrites].
  rewrite reads_app, writes_app, reads_prints, writes_prints. simpl.
  by rewrite Hreads, Hwrites.
Qed.

Lemma process_files_status output_dir entropy k combos sql_files :
  combos ≠ [] → Forall (λ c, has_dot c = true) combos →
  Forall (λ src, parses (strip_comments_and_semicolon (src_text src)) = true)
         sql_files →
  status (process_files output_dir entropy k combos sql_files) = Return ().
Proof.
  intros Hne Hdots Hall. revert k combos Hne Hdots.
  induction Hall as [|src rest Hsrc _ IH]; intros k combos Hne Hdots; [done|].
  simpl.
  destruct (rewrite_sql_returns (entropy k) _ combos Hsrc Hne Hdots)
    as (out & ->).
  simpl.
  destruct (rewrite_sql_keeps_usable (entropy k)
              (strip_comments_and_semicolon (src_text src)) combos Hne Hdots).
  by apply IH.
Qed.

Lemma process_files_pool_perm output_dir entropy k combos sql_files :
  pool (process_files output_dir entropy k combos sql_files) ≡ₚ combos.
Proof.
  revert k combos. induction sql_files as [|src rest IH]; intros k combos;
    [done|]. simpl.
  destruct (result (rewrite_sql (entropy k)
              (strip_comments_and_semicolon (src_text src)) combos));
    simpl; [rewrite IH|]; apply combos_after_perm.
Qed.

(** X12. A file whose call raises ends the run there: the run reports that
    exception, has read the files up to and including this one, has
    written only the targets of the files before it, and touches none of
    the files after it. *)
Theorem failing_file_stops_the_run
    output_dir entropy combos pre src post x :
  let r0 := process_files output_dir entropy 0 combos pre in
  let r := process_files output_dir entropy 0 combos (pre ++ src :: post) in
  status r0 = Return () →
  result (rewrite_sql (entropy (length pre))
            (strip_comments_and_semicolon (src_text src)) (pool r0))
    = Raise x →
  status r = Raise x ∧
  reads (events r) = src_name <$> (pre ++ [src]) ∧
  writes (events r) = pre ≫= targets output_dir.
Proof.
  intros r0 r Hok Hraise. subst r r0.
  destruct (process_files_events output_dir entropy 0 combos pre Hok)
    as [Hreads Hwrites].
  rewrite process_files_app. cbv zeta. rewrite Hok.
  cbn [process_files plus]. rewrite Hraise. cbn [events status].
  rewrite reads_app, writes_app, fmap_app. simpl.
  rewrite reads_prints, writes_prints, app_nil_r. by rewrite Hreads, Hwrites.
Qed.

Context `{Builtins}.

(** X13. A run whose mapping loads and gives a non-empty pool, and whose
    files (at least one) all parse or fail with a ParseError, ends
    normally: every file is read once, in order, both targets of every
    file are written, in order, the last line printed is "All done.", and
    the pool is a permutation of the one built from the mapping. *)
Theorem main_ends_normally output_dir document mapping sql_files entropy :
  load_mapping document = Return mapping →
  build_combos mapping ≠ [] →
  sql_files ≠ [] →
  Forall (λ src, parses (strip_comments_and_semicolon (src_text src)) = true)
         sql_files →
  let r := main output_dir document sql_files entropy in
  status r = Return () ∧
  reads (events r) = src_name <$> sql_files ∧
  writes (events r) = sql_files ≫= targets output_dir ∧
  list.last (events r) = Some (Print "All done.") ∧
  pool r ≡ₚ build_combos mapping.
Proof.
  intros Hload Hpool Hfiles Hall r. subst r. unfold main. rewrite Hload.
  cbn [mbind outcome_bind]. unfold combo_pool.
  destruct (build_combos mapping) as [|c combos] eqn:Hcombos; [done|].
  destruct sql_files as [|src rest]; [done|].
  assert (Hdots : Forall (λ c, has_dot c = true) (c :: combos)).
  { rewrite <- Hcombos. apply build_combos_dotted. }
  pose proof (process_files_status output_dir entropy 0 (c :: combos)
                (src :: rest) ltac:(done) Hdots Hall) as Hok.
  destruct (process_files_events output_dir entropy 0 (c :: combos)
              (src :: rest) Hok) as [Hreads Hwrites].
  rewrite Hok. cbn [status events pool].
  rewrite reads_app, writes_app, last_snoc, Hreads, Hwrites.
  cbn [reads writes omap]. rewrite !app_nil_r.
  split_and!; try done. apply process_files_pool_perm.
Qed.

(** X11. Over a whole run the pool keeps its entries: however the run
    ends, the list that the calls shared is a permutation of the pool
    built from the loaded mapping. *)
Theorem run_permutes_the_pool output_dir document mapping sql_files entropy :
  load_mapping document = Return mapping →
  pool (main output_dir document sql_files entropy) ≡ₚ build_combos mapping.
Proof.
  intros Hload. unfold main. rewrite Hload. cbn [mbind outcome_bind].
  unfold combo_pool.
  destruct (build_combos mapping) as [|c combos]; [done|].
  destruct sql_files as [|src rest]; [done|].
  pose proof (process_files_pool_perm output_dir entropy 0 (c :: combos)
                (src :: rest)) as Hperm.
  by destruct (status (process_files output_dir entropy 0 (c :: combos)
                         (src :: rest))).
Qed.

End MainMore.

(** ** The text helpers, further *)

Lemma linebreak_is_space c : is_linebreak c = true → is_space c = true.
Proof.
  unfold is_linebreak. intros Hc.
  apply existsb_exists in Hc as (x & Hx & Heq). apply char_eqb_eq in Heq as <-.
  assert (Hall : forallb is_space linebreaks = true) by reflexivity.
  rewrite forallb_forall in Hall. by apply Hall.
Qed.

Lemma has_space_app a b : has_space (a ++ b) = has_space a || has_space b.
Proof.
  induction a as [|x a IH]; [done|]. cbn [app has_space].
  rewrite IH. by destruct (is_space x).
Qed.

Lemma has_linebreak_app a b :
  has_linebreak (a ++ b) = has_linebreak a || has_linebreak b.
Proof.
  induction a as [|x a IH]; [done|]. cbn [app has_linebreak].
  rewrite IH. by destruct (is_linebreak x).
Qed.

Lemma no_space_no_linebreak s : has_space s = false → has_linebreak s = false.
Proof.
  induction s as [|c s IH]; [done|]. cbn [has_space has_linebreak]. intros Hs.
  apply orb_false_iff in Hs as [Hc Hs]. rewrite (IH Hs), orb_false_r.
  destruct (is_linebreak c) eqn:Hlb; [|done].
  apply linebreak_is_space in Hlb. congruence.
Qed.

Lemma has_space_all s :
  has_space s = false ↔ Forall (λ c, is_space c = false) s.
Proof.
  induction s as [|c s IH]; cbn [has_space]; [by split; [constructor|]|].
  rewrite orb_false_iff, IH, list.Forall_cons. done.
Qed.

(** *** [split()] and the single-line form *)

Lemma words_nil : words "" = [].
Proof. done. Qed.

Lemma words_space c r : is_space c = true → words (c :: r) = words r.
Proof. intros Hc. cbn [words]. by rewrite Hc. Qed.

Lemma words_last c : is_space c = false → words [c] = [[c]].
Proof. intros Hc. cbn [words]. by rewrite Hc. Qed.

Lemma words_end c b r :
  is_space c = false → is_space b = true →
  words (c :: b :: r) = [c] :: words r.
Proof. intros Hc Hb. cbn [words]. by rewrite Hc, Hb. Qed.

Lemma words_cons2 a b r :
  is_space a = false → is_space b = false →
  words (a :: b :: r) =
    match words (b :: r) with
    | w :: ws => (a :: w) :: ws
    | [] => [[a]]
    end.
Proof. intros Ha Hb. cbn [words]. by rewrite Ha, Hb. Qed.

(** Every word is non-empty and free of white space. *)
Lemma words_are_words s :
  Forall (λ w, w ≠ "" ∧ has_space w = false) (words s).
Proof.
  induction s as [|c s IH]; [constructor|].
  destruct (is_space c) eqn:Hc; [by rewrite words_space|].
  assert (Hone : [c] ≠ "" ∧ has_space [c] = false).
  { split; [done|]. cbn [has_space]. by rewrite Hc. }
  destruct s as [|b s'].
  { rewrite words_last by done. constructor; [done|constructor]. }
  destruct (is_space b) eqn:Hb.
  - rewrite words_end by done. rewrite words_space in IH by done.
    by constructor.
  - rewrite words_cons2 by done. destruct (words (b :: s')) as [|w ws].
    + constructor; [done|constructor].
    + apply list.Forall_cons in IH as [[Hw Hsp] Hws].
      constructor; [|done]. split; [done|]. cbn [has_space].
      by rewrite Hc, Hsp.
Qed.

(** A word followed by white space is split off as it is. *)
Lemma words_word_space w c t :
  w ≠ "" → has_space w = false → is_space c = true →
  words (w ++ c :: t) = w :: words t.
Proof.
  induction w as [|a w IH]; [done|]. intros _ Hsp Hc. cbn [has_space] in Hsp.
  apply orb_false_iff in Hsp as [Ha Hsp]. cbn [app].
  destruct w as [|b w'].
  - cbn [app]. by rewrite words_end.
  - assert (Hb : is_space b = false).
    { cbn [has_space] in Hsp. by apply orb_false_iff in Hsp as [? _]. }
    specialize (IH ltac:(done) Hsp Hc). cbn [app] in IH |- *.
    rewrite words_cons2 by done. by rewrite IH.
Qed.

Lemma words_word w : w ≠ "" → has_space w = false → words w = [w].
Proof.
  induction w as [|a w IH]; [done|]. intros _ Hsp. cbn [has_space] in Hsp.
  apply orb_false_iff in Hsp as [Ha Hsp].
  destruct w as [|b w']; [by apply words_last|].
  assert (Hb : is_space b = false).
  { cbn [has_space] in Hsp. by apply orb_false_iff in Hsp as [? _]. }
  specialize (IH ltac:(done) Hsp). rewrite words_cons2 by done. by rewrite IH.
Qed.

Lemma join_cons2 sep a b r :
  join sep (a :: b :: r) = a ++ sep ++ join sep (b :: r).
Proof. reflexivity. Qed.

Lemma words_join ws :
  Forall (λ w, w ≠ "" ∧ has_space w = false) ws → words (join " " ws) = ws.
Proof.
  induction 1 as [|w ws [Hne Hsp] Hws IH]; [done|].
  destruct ws as [|w2 ws]; [by apply words_word|].
  rewrite join_cons2. change (" " ++ join " " (w2 :: ws))
    with (" "%char :: join " " (w2 :: ws)).
  rewrite words_word_space by done. by rewrite IH.
Qed.

Lemma join_blank_no_linebreak ws :
  Forall (λ w, w ≠ "" ∧ has_space w = false) ws →
  has_linebreak (join " " ws) = false.
Proof.
  induction 1 as [|w ws [Hne Hsp] Hws IH]; [done|].
  destruct ws as [|w2 ws]; [by apply no_space_no_linebreak|].
  rewrite join_cons2, !has_linebreak_app, IH.
  by rewrite (no_space_no_linebreak w Hsp).
Qed.

(** White space in front of a text does not change its words. *)
Lemma split_of_space c s ws :
  is_space c = true → split_of s ws → split_of (c :: s) ws.
Proof.
  intros Hc Hs. destruct Hs as [sp Hsp|sp w rest ws Hsp Hne Hw Hrest Hws].
  - apply split_of_blank. by constructor.
  - apply (split_of_word (c :: sp)); try done. by constructor.
Qed.

(** A character that is no white space, in front of a text that begins
    with a word, extends that word. *)
Lemma split_of_extend c b r ws :
  is_space c = false → is_space b = false → split_of (b :: r) ws →
  ∃ w ws', ws = w :: ws' ∧ split_of (c :: b :: r) ((c :: w) :: ws').
Proof.
  intros Hc Hb Hs. inversion Hs as [sp Hsp Heq|sp w rest ws' Hsp Hne Hw Hrest Hws Heq].
  - subst sp. apply list.Forall_cons in Hsp as [Hb' _]. congruence.
  - destruct sp as [|x sp].
    + exists w, ws'. split; [done|].
      change (split_of ([] ++ (c :: w) ++ rest) ((c :: w) :: ws')).
      apply split_of_word; [constructor|done| |done..].
      cbn [has_space]. by rewrite Hc, Hw.
    + cbn [app] in Heq. injection Heq as Hx _.
      apply list.Forall_cons in Hsp as [Hb' _]. congruence.
Qed.

(** [words] splits a text as [str.split] is documented to. *)
Lemma words_split_of s : split_of s (words s).
Proof.
  induction s as [|c s IH]; [apply split_of_blank; constructor|].
  destruct (is_space c) eqn:Hc.
  { rewrite words_space by done. by apply split_of_space. }
  assert (Hone : has_space [c] = false).
  { cbn [has_space]. by rewrite Hc. }
  destruct s as [|b s'].
  - rewrite words_last by done.
    apply (split_of_word [] [c] []); [constructor|done|done|by left|].
    apply split_of_blank; constructor.
  - destruct (is_space b) eqn:Hb.
    + rewrite words_end by done. rewrite words_space in IH by done.
      apply (split_of_word [] [c] (b :: s'));
        [constructor|done|done|right; by eexists _, _|].
      done.
    + rewrite words_cons2 by done.
      destruct (split_of_extend c b s' _ Hc Hb IH) as (w & ws' & -> & Hsplit).
      done.
Qed.

(** Words joined by single blanks split into those words. *)
Lemma join_split_of ws :
  Forall (λ w, w ≠ "" ∧ has_space w = false) ws → split_of (join " " ws) ws.
Proof.
  induction 1 as [|w ws [Hne Hsp] Hws IH]; [apply split_of_blank; constructor|].
  destruct ws as [|w2 ws].
  - cbn [join].
    assert (Hs : split_of ([] ++ w ++ []) [w]).
    { apply split_of_word; [constructor|done|done|by left|].
      apply split_of_blank; constructor. }
    cbn [app] in Hs. by rewrite app_nil_r in Hs.
  - rewrite join_cons2.
    apply (split_of_word [] w (" " ++ join " " (w2 :: ws)));
      [constructor|done|done|right; by eexists _, _|].
    by apply split_of_space.
Qed.

(** X14. The single-line form of a text consists of the words of the text,
    as [str.split] is documented to cut them (the maximal runs of
    characters that are not white space, in their order), with one blank
    between neighbours: split again it gives the same words, it holds no
    white space but those blanks, no line boundary at all, and it is its
    own single-line form. *)
Theorem single_line_keeps_the_words s :
  ∃ ws,
    split_of s ws ∧
    single_line s = join " " ws ∧
    split_of (single_line s) ws ∧
    words (single_line s) = ws ∧
    Forall (λ c, is_space c = true → c = " "%char) (single_line s) ∧
    has_linebreak (single_line s) = false ∧
    single_line (single_line s) = single_line s.
Proof.
  exists (words s). unfold single_line. pose proof (words_are_words s) as Hw.
  rewrite (words_join _ Hw).
  split_and!; [apply words_split_of|done|by apply join_split_of|done| |
               by apply join_blank_no_linebreak|done].
  clear -Hw. induction Hw as [|w ws [Hne Hsp] Hws IH]; [constructor|].
  assert (Hword : Forall (λ c, is_space c = true → c = " "%char) w).
  { apply has_space_all in Hsp. eapply list.Forall_impl; [done|].
    intros c Hc Hc'. congruence. }
  destruct ws as [|w2 ws]; [done|].
  rewrite join_cons2. apply Forall_app. split; [done|].
  apply Forall_app. split; [by repeat constructor|done].
Qed.

(** *** Lines *)

Lemma splitlines_lf r : splitlines (lf :: r) = [] :: splitlines r.
Proof. by destruct r. Qed.

Lemma splitlines_char c r :
  is_linebreak c = false →
  splitlines (c :: r) =
    match splitlines r with
    | ln :: lns => (c :: ln) :: lns
    | [] => [[c]]
    end.
Proof. intros Hc. cbn [splitlines]. by rewrite Hc. Qed.

(** A text without line boundary is its own single line. *)
Lemma splitlines_one_line l :
  has_linebreak l = false → l ≠ "" → splitlines l = [l].
Proof.
  induction l as [|a l IH]; [done|]. cbn [has_linebreak]. intros Hl _.
  apply orb_false_iff in Hl as [Ha Hl]. rewrite splitlines_char by done.
  destruct l as [|b l']; [done|]. by rewrite IH.
Qed.

(** A line, a newline, and the rest. *)
Lemma splitlines_line_nl l t :
  has_linebreak l = false →
  splitlines (l ++ lf :: t) = l :: splitlines t.
Proof.
  induction l as [|a l IH]; intros Hl.
  - apply splitlines_lf.
  - cbn [has_linebreak] in Hl. apply orb_false_iff in Hl as [Ha Hl].
    cbn [app]. rewrite splitlines_char by done. by rewrite IH.
Qed.

Lemma join_cons_ne sep a r :
  r ≠ [] → join sep (a :: r) = a ++ sep ++ join sep r.
Proof. by destruct r. Qed.

(** Lines joined by newlines split into the same lines, unless the last
    one is empty. *)
Lemma splitlines_join ls :
  Forall (λ ln, has_linebreak ln = false) ls →
  list.last ls ≠ Some "" →
  splitlines (join nl ls) = ls.
Proof.
  induction 1 as [|l ls Hl Hls IH]; [done|]. intros Hlast.
  destruct ls as [|l2 ls].
  - apply splitlines_one_line; [done|]. intros ->. done.
  - rewrite join_cons2.
    change (nl ++ join nl (l2 :: ls)) with (lf :: join nl (l2 :: ls)).
    rewrite splitlines_line_nl by done. by rewrite IH.
Qed.

(** With a newline at the end as well. *)
Lemma splitlines_join_nl ls :
  Forall (λ ln, has_linebreak ln = false) ls → ls ≠ [] →
  splitlines (join nl ls ++ nl) = ls.
Proof.
  induction 1 as [|l ls Hl Hls IH]; [done|]. intros _.
  destruct ls as [|l2 ls].
  - cbn [join]. unfold nl. by rewrite (splitlines_line_nl l []).
  - rewrite join_cons2, <- !app_assoc.
    change (nl ++ join nl (l2 :: ls) ++ nl)
      with (lf :: (join nl (l2 :: ls) ++ nl)).
    rewrite splitlines_line_nl by done. by rewrite IH.
Qed.

Lemma join_snoc_append sep ls l x :
  join sep (ls ++ [l ++ x]) = join sep (ls ++ [l]) ++ x.
Proof.
  induction ls as [|a ls IH]; [done|].
  rewrite <- !app_comm_cons, !join_cons_ne by (by destruct ls).
  by rewrite IH, <- !app_assoc.
Qed.

(** *** Trimming the end *)

Lemma rstrip_keeps_last x c :
  is_space c = false → rstrip (x ++ [c]) = x ++ [c].
Proof.
  intros Hc. induction x as [|a x IH].
  - cbn [app rstrip]. by rewrite Hc.
  - cbn [app rstrip]. rewrite IH. by destruct x.
Qed.

Lemma endswith_last x c : endswith c (x ++ [c]) = true.
Proof.
  induction x as [|a x IH]; [apply char_eqb_refl|].
  cbn [app endswith]. by destruct x.
Qed.

Lemma drop_last_last x c : drop_last (x ++ [c]) = x.
Proof.
  induction x as [|a x IH]; [done|].
  cbn [app drop_last]. destruct x; [done|]. by rewrite IH.
Qed.

(** A semicolon at the end of a line does not make it a comment. *)
Lemma is_comment_semicolon l :
  is_comment l = false → is_comment (l ++ ";") = false.
Proof.
  unfold is_comment. induction l as [|c l IH]; [done|].
  cbn [app lstrip]. destruct (is_space c); [done|].
  intros Hl. cbn [startswith] in *.
  destruct (char_eqb "-" c); [|done]. cbn [andb] in *.
  destruct l as [|d l']; [done|]. cbn [app startswith] in *.
  by destruct (char_eqb "-" d).
Qed.

(** X15. A text whose last line is a statement line ending in a semicolon:
    the clean-up returns its lines that are not comments, in order and
    joined by newlines, with that one semicolon removed; a final newline
    after the semicolon makes no difference.  Only one semicolon goes: if
    the line ends in two, one stays. *)
Theorem clean_up_keeps_statement_lines ls l :
  Forall (λ ln, has_linebreak ln = false) ls →
  has_linebreak l = false → is_comment l = false →
  strip_comments_and_semicolon (join nl (ls ++ [l ++ ";"]))
    = join nl (filter (λ ln, is_comment ln = false) ls ++ [l]) ∧
  strip_comments_and_semicolon (join nl (ls ++ [l ++ ";"]) ++ nl)
    = join nl (filter (λ ln, is_comment ln = false) ls ++ [l]).
Proof.
  intros Hls Hl Hcom.
  assert (Hlines : Forall (λ ln, has_linebreak ln = false) (ls ++ [l ++ ";"])).
  { apply Forall_app. split; [done|]. constructor; [|constructor].
    by rewrite has_linebreak_app, Hl. }
  assert (Hclean : ∀ text, splitlines text = ls ++ [l ++ ";"] →
            strip_comments_and_semicolon text
            = join nl (filter (λ ln, is_comment ln = false) ls ++ [l])).
  { intros text Htext. unfold strip_comments_and_semicolon. rewrite Htext.
    change (λ ln, startswith "--" (lstrip ln) = false)
      with (λ ln, is_comment ln = false).
    rewrite list.filter_app, (filter_cons_True _ (l ++ ";"))
      by (by apply is_comment_semicolon).
    rewrite filter_nil, join_snoc_append.
    by rewrite rstrip_keeps_last, endswith_last, drop_last_last. }
  split; apply Hclean.
  - apply splitlines_join; [done|]. rewrite last_snoc. intros [= Heq].
    by destruct l.
  - apply splitlines_join_nl; [done|]. by destruct ls.
Qed.

(** *** No comment line survives *)

Lemma splitlines_no_linebreak_upto n s :
  length s ≤ n → Forall (λ ln, has_linebreak ln = false) (splitlines s).
Proof.
  revert s. induction n as [|n IH]; intros [|c r] Hlen;
    [constructor|simpl in Hlen; lia|constructor|].
  simpl in Hlen. cbn [splitlines]. destruct (is_linebreak c) eqn:Hc.
  - destruct r as [|c' r']; [by repeat constructor|].
    simpl in Hlen.
    destruct (char_eqb c cr && char_eqb c' lf);
      (constructor; [done|apply IH; simpl; lia]).
  - pose proof (IH r ltac:(lia)) as Hr.
    destruct (splitlines r) as [|ln lns].
    + repeat constructor. cbn [has_linebreak]. by rewrite Hc.
    + apply list.Forall_cons in Hr as [Hln Hlns].
      constructor; [|done]. cbn [has_linebreak]. by rewrite Hc, Hln.
Qed.

Lemma splitlines_no_linebreak s :
  Forall (λ ln, has_linebreak ln = false) (splitlines s).
Proof. by apply (splitlines_no_linebreak_upto (length s)). Qed.

(** Two ways of cutting the same text. *)
Lemma append_cases (t u x y : str) :
  t ++ u = x ++ y →
  (∃ v, x = t ++ v) ∨ (∃ t', t = x ++ t' ∧ y = t' ++ u).
Proof.
  revert x. induction t as [|a t IH]; intros x Heq.
  - left. by exists x.
  - destruct x as [|b x].
    + right. by exists (a :: t).
    + cbn [app] in Heq. injection Heq as -> Heq.
      destruct (IH x Heq) as [(v & ->)|(t' & -> & ->)].
      * left. by exists v.
      * right. by exists t'.
Qed.

Lemma rstrip_prefix s : ∃ u, s = rstrip s ++ u.
Proof.
  induction s as [|c s (u & Hu)]; [by exists []|].
  cbn [rstrip]. destruct (rstrip s) as [|d r].
  - cbn [app] in Hu. subst u. destruct (is_space c).
    + by exists (c :: s).
    + by exists s.
  - exists u. cbn [app]. by f_equal.
Qed.

Lemma drop_last_prefix s : ∃ u, s = drop_last s ++ u.
Proof.
  induction s as [|c s (u & Hu)]; [by exists []|].
  cbn [drop_last]. destruct s as [|d s'].
  - by exists [c].
  - exists u. cbn [app]. by f_equal.
Qed.

(** The beginning of a line that is no comment is no comment. *)
Lemma is_comment_prefix ln v :
  is_comment (ln ++ v) = false → is_comment ln = false.
Proof.
  unfold is_comment. induction ln as [|c ln IH]; [done|].
  cbn [app lstrip]. destruct (is_space c); [done|].
  cbn [startswith]. destruct (char_eqb "-" c); [|done]. cbn [andb].
  destruct ln as [|d ln']; [done|]. cbn [app startswith].
  by destruct (char_eqb "-" d).
Qed.

(** The lines of the beginning of a line. *)
Lemma lines_of_line_prefix (L : list str) l t v :
  has_linebreak l = false → l ∈ L → l = t ++ v →
  Forall (λ ln, ∃ l v, l ∈ L ∧ l = ln ++ v) (splitlines t).
Proof.
  intros Hl Hin Heq. destruct t as [|a t']; [constructor|].
  rewrite splitlines_one_line; [|subst l|done].
  - repeat constructor. eauto.
  - rewrite has_linebreak_app in Hl. by apply orb_false_iff in Hl as [? _].
Qed.

(** Every line of a beginning of joined lines is the beginning of one of
    those lines. *)
Lemma lines_of_prefix L :
  Forall (λ ln, has_linebreak ln = false) L →
  ∀ t u, join nl L = t ++ u →
         Forall (λ ln, ∃ l v, l ∈ L ∧ l = ln ++ v) (splitlines t).
Proof.
  induction 1 as [|l L Hl HL IH]; intros t u Heq.
  - destruct t; [constructor|done].
  - assert (Hself : l ∈ l :: L) by left.
    destruct L as [|l2 L].
    + by apply (lines_of_line_prefix _ l t u).
    + rewrite join_cons2 in Heq. symmetry in Heq.
      destruct (append_cases _ _ _ _ Heq) as [(v & Hv)|(t' & -> & Ht')].
      * by apply (lines_of_line_prefix _ l t v).
      * destruct t' as [|c t''].
        { apply (lines_of_line_prefix _ l _ []); [done..|].
          by rewrite !app_nil_r. }
        change (nl ++ join nl (l2 :: L))
          with (lf :: join nl (l2 :: L)) in Ht'.
        cbn [app] in Ht'. injection Ht' as <- Ht'.
        rewrite splitlines_line_nl by done. constructor.
        { exists l, []. by rewrite app_nil_r. }
        eapply list.Forall_impl; [by apply (IH t'' u)|].
        intros ln (l' & v & Hin & ->). exists (ln ++ v), v. split; [by right|done].
Qed.

(** X16. No comment line survives the clean-up: whatever the text, none of
    the lines of the result begins, after leading white space, with two
    dashes. *)
Theorem clean_up_leaves_no_comment_line text :
  Forall (λ ln, startswith "--" (lstrip ln) = false)
         (splitlines (strip_comments_and_semicolon text)).
Proof.
  unfold strip_comments_and_semicolon.
  change (λ ln, startswith "--" (lstrip ln) = false)
    with (λ ln, is_comment ln = false).
  set (L := filter (λ ln, is_comment ln = false) (splitlines text)).
  assert (HL : Forall (λ ln, has_linebreak ln = false) L).
  { apply list.Forall_forall. intros ln Hin.
    apply list_elem_of_filter in Hin as [_ Hin].
    pose proof (splitlines_no_linebreak text) as Hall.
    rewrite list.Forall_forall in Hall. by apply Hall. }
  assert (Hpre : ∃ u, join nl L
                      = (if endswith ";" (rstrip (join nl L))
                         then drop_last (rstrip (join nl L))
                         else rstrip (join nl L)) ++ u).
  { destruct (rstrip_prefix (join nl L)) as (u & Hu).
    destruct (endswith ";" (rstrip (join nl L))); [|by exists u].
    destruct (drop_last_prefix (rstrip (join nl L))) as (u' & Hu').
    exists (u' ++ u). by rewrite app_assoc, <- Hu'. }
  destruct Hpre as (u & Hu).
  eapply list.Forall_impl; [by apply (lines_of_prefix L HL _ u)|].
  intros ln (l & v & Hin & ->). apply (is_comment_prefix ln v).
  by apply list_elem_of_filter in Hin as [? _].
Qed.

(** *** The target beside the original *)

Lemma endswith_app c x y :
  y ≠ "" → endswith c (x ++ y) = endswith c y.
Proof.
  intros Hy. induction x as [|a x IH]; [done|].
  cbn [app endswith]. destruct (x ++ y) eqn:Hxy; [|done].
  by destruct x.
Qed.

Lemma before_last_dot_app x y :
  has_dot y = false → before_last_dot (x ++ "."%char :: y) = x.
Proof.
  intros Hy. induction x as [|a x IH].
  - cbn [app before_last_dot]. by rewrite Hy.
  - cbn [app before_last_dot].
    rewrite has_dot_app, IH. cbn [has_dot].
    rewrite char_eqb_refl. by rewrite orb_true_r, andb_false_r.
Qed.

Lemma before_last_dot_split r :
  has_dot r = true → ∃ rest, r = before_last_dot r ++ "."%char :: rest.
Proof.
  induction r as [|a r IH]; [done|]. cbn [has_dot before_last_dot].
  intros Hdot. destruct (char_eqb a ".") eqn:Ha.
  - apply char_eqb_eq in Ha as ->. destruct (has_dot r) eqn:Hr; cbn [negb andb].
    + destruct (IH eq_refl) as (rest & Hrest). exists rest.
      cbn [app]. by rewrite <- Hrest.
    + by exists r.
  - cbn [orb andb] in *. destruct (IH Hdot) as (rest & Hrest). exists rest.
    cbn [app]. by rewrite <- Hrest.
Qed.

(** The stem is the name, or the name up to one of its dots. *)
Lemma stem_cases name :
  stem name = name ∨ ∃ rest, name = stem name ++ "."%char :: rest.
Proof.
  unfold stem. destruct name as [|c r]; [by left|].
  destruct (has_dot r && negb (endswith "." (c :: r))) eqn:Hcond;
    [|by left].
  apply andb_true_iff in Hcond as [Hdot _].
  destruct (before_last_dot_split r Hdot) as (rest & Hrest).
  right. exists rest. cbn [app]. by rewrite <- Hrest.
Qed.

(** X17. Without an output directory the target of a file [base.ext] is
    [base_mod.sql], whatever the one extension is, and for no file name at
    all is the target the name of the file itself: a file is never
    overwritten by its own result. *)
Theorem target_beside_original_differs base ext name :
  base ≠ "" → ext ≠ "" → has_dot ext = false →
  dst_name false (base ++ "." ++ ext) = base ++ "_mod.sql" ∧
  dst_name false name ≠ name.
Proof.
  intros Hbase Hext Hdot. split.
  - unfold dst_name. f_equal. destruct base as [|c b]; [done|].
    assert (Hend0 : endswith "." ext = false).
    { clear -Hdot. induction ext as [|x ext IH]; [done|].
      cbn [has_dot] in Hdot. apply orb_false_iff in Hdot as [Hx Hdot].
      cbn [endswith]. destruct ext as [|x2 ext']; [done|]. by apply IH. }
    assert (Hend : ∀ a, endswith "." (a :: ext) = false).
    { intros a. by destruct ext. }
    change ((c :: b) ++ "." ++ ext) with (c :: (b ++ "."%char :: ext)).
    unfold stem. cbv beta iota.
    change (c :: b ++ "."%char :: ext) with ((c :: b) ++ "."%char :: ext).
    rewrite endswith_app, Hend by done.
    rewrite has_dot_app, before_last_dot_app by done.
    cbn [has_dot]. rewrite char_eqb_refl. by rewrite orb_true_r.
  - unfold dst_name. intros Heq.
    destruct (stem_cases name) as [Hstem|(rest & Hrest)].
    + rewrite Hstem in Heq. rewrite <- (app_nil_r name) in Heq at 2.
      by apply app_inv_head in Heq.
    + rewrite Hrest in Heq at 2. by apply app_inv_head in Heq.
Qed.

(** * The further properties at concrete inputs *)

Lemma rewrite_keeps_names_and_other_nodes_witness :
  @parse Demo.sqlglot Demo.sql_join = Statements (Some <$> [Demo.q_join]) ∧
  Demo.pool2 ≠ [] ∧
  Forall (λ c, has_dot c = true) Demo.pool2 ∧
  ∃ es' g',
    @rewrite_statements Demo.tape Demo.unicode
      (@shuffle Demo.tape str Demo.pool2 [0; 1; 0]).1 (Some <$> [Demo.q_join])
      (@shuffle Demo.tape str Demo.pool2 [0; 1; 0]).2
      = Return (es', g') ∧
    result (@rewrite_sql Demo.tape Demo.sqlglot Demo.unicode [0; 1; 0]
                         Demo.sql_join Demo.pool2)
      = Return (join (";" ++ nl) (@to_sql Demo.sqlglot <$> es')) ∧
    length es' = length [Demo.q_join] ∧
    ∀ i stmt stmt' p,
      [Demo.q_join] !! i = Some stmt → es' !! i = Some stmt' →
      identity_of <$> data_at p stmt' = identity_of <$> data_at p stmt ∧
      ∀ d, cls d ≠ Table → data_at p stmt = Some d ↔ data_at p stmt' = Some d.
Proof.
  split_and!; [reflexivity|discriminate|repeat constructor|].
  apply (@rewrite_keeps_names_and_other_nodes Demo.tape Demo.sqlglot
           Demo.unicode);
    [reflexivity|discriminate|repeat constructor].
Defined.

Lemma second_pass_changes_nothing_witness :
  @parse Demo.sqlglot Demo.sql_join = Statements (Some <$> [Demo.q_join]) ∧
  Demo.pool2 ≠ [] ∧
  Forall (λ c, has_dot c = true) Demo.pool2 ∧
  ("." ∉ Demo.pool2) ∧
  ∃ es' g',
    @rewrite_statements Demo.tape Demo.unicode
      (@shuffle Demo.tape str Demo.pool2 [0; 1; 0]).1 (Some <$> [Demo.q_join])
      (@shuffle Demo.tape str Demo.pool2 [0; 1; 0]).2
      = Return (es', g') ∧
    Forall (λ e, @has_eligible Demo.unicode e = false) es' ∧
    ∀ combos2 g2,
      @rewrite_statements Demo.tape Demo.unicode combos2 (Some <$> es') g2
        = Return (es', g2).
Proof.
  assert (Hnodot : "." ∉ Demo.pool2).
  { intros Hin. repeat (apply elem_of_cons in Hin as [Hin|Hin];
                        [discriminate Hin|]).
    by apply elem_of_nil in Hin. }
  split_and!; [reflexivity|discriminate|repeat constructor|exact Hnodot|].
  apply (@second_pass_changes_nothing Demo.tape Demo.sqlglot Demo.unicode
           [0; 1; 0] Demo.sql_join);
    [reflexivity|discriminate|repeat constructor|exact Hnodot].
Defined.

Lemma dotless_pool_raises_only_when_drawing_witness :
  @parse Demo.sqlglot Demo.sql_join = Statements (Some <$> [Demo.q_join]) ∧
  Forall (λ c, has_dot c = false) Cases.pool_nodot ∧
  result (@rewrite_sql Demo.tape Demo.sqlglot Demo.unicode [0; 1; 0]
                       Demo.sql_join Cases.pool_nodot) =
    if existsb (@has_eligible Demo.unicode) [Demo.q_join]
    then Raise (match Cases.pool_nodot with
                | [] => IndexError
                | _ :: _ => ValueError
                end)
    else Return (join (";" ++ nl) (@to_sql Demo.sqlglot <$> [Demo.q_join])).
Proof.
  split_and!; [reflexivity|repeat constructor|].
  apply (@dotless_pool_raises_only_when_drawing Demo.tape Demo.sqlglot
           Demo.unicode);
    [reflexivity|repeat constructor].
Defined.

(** The same pool does not fail a statement whose one open reference is
    exempt by a CTE name that differs in the case of a letter outside
    ASCII: nothing is drawn, and the statement is returned. *)
Example dotless_pool_and_accented_reference :
  @parse Cases.sqlglot_more Cases.sql_accent_const
    = Statements [Some Cases.q_accent_const] ∧
  @has_eligible Demo.unicode Cases.q_accent_const = false ∧
  result (@rewrite_sql Demo.tape Cases.sqlglot_more Demo.unicode [0]
                       Cases.sql_accent_const Cases.pool_nodot)
    = Return "WITH É AS (SELECT 1) SELECT * FROM é".
Proof. split_and!; reflexivity. Qed.

Lemma empty_statement_raises_attribute_error_witness :
  @parse Cases.sqlglot_gap Cases.sql_gap
    = Statements ((Some <$> [Demo.q_const]) ++ None :: [Some Demo.q_const]) ∧
  Demo.pool2 ≠ [] ∧
  Forall (λ c, has_dot c = true) Demo.pool2 ∧
  result (@rewrite_sql Demo.tape Cases.sqlglot_gap Demo.unicode [0; 1; 0]
                       Cases.sql_gap Demo.pool2)
    = Raise AttributeError.
Proof.
  split_and!; [reflexivity|discriminate|repeat constructor|].
  apply (@empty_statement_raises_attribute_error Demo.tape Cases.sqlglot_gap
           Demo.unicode [0; 1; 0] Cases.sql_gap Demo.pool2 [Demo.q_const]
           [Some Demo.q_const]);
    [reflexivity|discriminate|repeat constructor].
Defined.

Lemma load_mapping_reads_back_the_document_witness :
  NoDup Cases.mapping_two.*1 ∧
  @load_mapping Demo.builtins (Return (document_of Cases.mapping_two))
    = Return Cases.mapping_two.
Proof.
  assert (Hnd : NoDup Cases.mapping_two.*1).
  { apply list.NoDup_cons. split; [|apply NoDup_singleton].
    intros Hin. apply list_elem_of_singleton in Hin. discriminate Hin. }
  split; [exact Hnd|].
  apply (@load_mapping_reads_back_the_document Demo.builtins). exact Hnd.
Defined.

Lemma load_mapping_keeps_the_last_of_equal_keys_witness :
  @load_mapping Cases.builtins_int (Return (PDict Cases.colliding))
    = Return [("1", ["y"])] ∧
  NoDup [("1", ["y"])].*1 ∧
  (∀ k, k ∈ [("1", ["y"])].*1 ↔
        ∃ item, item ∈ Cases.colliding ∧ @py_str Cases.builtins_int item.1 = k) ∧
  ∀ pre cat schemas post,
    Cases.colliding = pre ++ (cat, schemas) :: post →
    (∀ item, item ∈ post →
             @py_str Cases.builtins_int item.1 ≠ @py_str Cases.builtins_int cat) →
    ∃ schs, py_iter schemas = Return schs ∧
            dict_get (@py_str Cases.builtins_int cat) [("1", ["y"])]
              = Some (@py_str Cases.builtins_int <$> schs).
Proof.
  split; [reflexivity|].
  apply (@load_mapping_keeps_the_last_of_equal_keys Cases.builtins_int).
  reflexivity.
Defined.

Lemma non_iterable_value_aborts_with_type_error_witness :
  (PStr "pg", PInt 3) ∈ Cases.number_valued ∧
  py_iter (PInt 3) = Raise TypeError ∧
  @main Demo.tape Demo.sqlglot Demo.unicode Demo.builtins true
        (Return (PDict Cases.number_valued)) Cases.three_files (λ _, [0; 0; 0])
    = Run [] [] (Raise TypeError).
Proof.
  split_and!; [left|reflexivity|].
  apply (@non_iterable_value_aborts_with_type_error Demo.builtins Demo.tape
           Demo.sqlglot Demo.unicode true Cases.number_valued (PStr "pg")
           (PInt 3));
    [left|reflexivity].
Defined.

Lemma run_permutes_the_pool_witness :
  @load_mapping Demo.builtins (Return Demo.mapping_xy)
    = Return [("pg", ["x"; "y"])] ∧
  pool (@main Demo.tape Demo.sqlglot Demo.unicode Demo.builtins true
              (Return Demo.mapping_xy) Cases.three_files (λ _, [0; 0; 0]))
    ≡ₚ build_combos [("pg", ["x"; "y"])].
Proof.
  split; [reflexivity|].
  apply (@run_permutes_the_pool Demo.tape Demo.sqlglot Demo.unicode
           Demo.builtins).
  reflexivity.
Defined.

Lemma failing_file_stops_the_run_witness :
  let entropy : nat → list nat := λ _, [0; 0; 0] in
  let pre := [Source "a.sql" Demo.sql_const] in
  let src := Source "b.sql" Demo.sql_join in
  let post := [Source "c.sql" Demo.sql_cte] in
  let r0 := @process_files Demo.tape Demo.sqlglot Demo.unicode true entropy 0
                           Cases.pool_nodot pre in
  let r := @process_files Demo.tape Demo.sqlglot Demo.unicode true entropy 0
                          Cases.pool_nodot (pre ++ src :: post) in
  status r0 = Return () ∧
  result (@rewrite_sql Demo.tape Demo.sqlglot Demo.unicode
            (entropy (length pre))
            (strip_comments_and_semicolon (src_text src)) (pool r0))
    = Raise ValueError ∧
  status r = Raise ValueError ∧
  reads (events r) = src_name <$> (pre ++ [src]) ∧
  writes (events r) = pre ≫= targets true.
Proof.
  intros entropy pre src post r0 r. split_and!; [reflexivity|reflexivity|..];
    apply (@failing_file_stops_the_run Demo.tape Demo.sqlglot Demo.unicode
             true entropy Cases.pool_nodot pre src post ValueError);
    reflexivity.
Defined.

Lemma main_ends_normally_witness :
  let r := @main Demo.tape Demo.sqlglot Demo.unicode Demo.builtins false
                 (Return Demo.mapping_xy) Cases.three_files (λ _, [0; 0; 0]) in
  @load_mapping Demo.builtins (Return Demo.mapping_xy)
    = Return [("pg", ["x"; "y"])] ∧
  build_combos [("pg", ["x"; "y"])] ≠ [] ∧
  Cases.three_files ≠ [] ∧
  Forall (λ src, @parses Demo.sqlglot
                   (strip_comments_and_semicolon (src_text src)) = true)
         Cases.three_files ∧
  status r = Return () ∧
  reads (events r) = src_name <$> Cases.three_files ∧
  writes (events r) = Cases.three_files ≫= targets false ∧
  list.last (events r) = Some (Print "All done.") ∧
  pool r ≡ₚ build_combos [("pg", ["x"; "y"])].
Proof.
  intros r.
  assert (Hall : Forall (λ src, @parses Demo.sqlglot
                          (strip_comments_and_semicolon (src_text src)) = true)
                        Cases.three_files)
    by (repeat (constructor; [reflexivity|]); constructor).
  split_and!; [reflexivity|discriminate|discriminate|exact Hall|..];
    apply (@main_ends_normally Demo.tape Demo.sqlglot Demo.unicode
             Demo.builtins false
             (Return Demo.mapping_xy) [("pg", ["x"; "y"])] Cases.three_files
             (λ _, [0; 0; 0]));
    first [reflexivity|discriminate|exact Hall].
Defined.

Lemma clean_up_keeps_statement_lines_witness :
  let ls := ["-- query 7"; "SELECT *"; "  -- the fact table"] in
  let l := "FROM store_sales;" in
  Forall (λ ln, has_linebreak ln = false) ls ∧
  has_linebreak l = false ∧ is_comment l = false ∧
  strip_comments_and_semicolon (join nl (ls ++ [l ++ ";"]))
    = join nl (filter (λ ln, is_comment ln = false) ls ++ [l]) ∧
  strip_comments_and_semicolon (join nl (ls ++ [l ++ ";"]) ++ nl)
    = join nl (filter (λ ln, is_comment ln = false) ls ++ [l]).
Proof.
  intros ls l.
  split_and!; [repeat constructor|reflexivity|reflexivity|..];
    apply (clean_up_keeps_statement_lines ls l);
    first [reflexivity|repeat constructor].
Defined.

Lemma target_beside_original_differs_witness :
  "q1" ≠ "" ∧ "sql" ≠ "" ∧ has_dot "sql" = false ∧
  dst_name false ("q1" ++ "." ++ "sql") = "q1" ++ "_mod.sql" ∧
  dst_name false "q1_mod.sql" ≠ "q1_mod.sql".
Proof.
  split_and!; [discriminate|discriminate|reflexivity|..];
    apply (target_beside_original_differs "q1" "sql" "q1_mod.sql");
    first [discriminate|reflexivity].
Defined.
